(** * Task scheduler (codigo3.py): Task, TaskManager and their properties

    A shallow embedding of [src/codigo3.py].  Python objects are kept in an
    object store indexed by identity, so that the [Task] objects shared by
    [task_dict] and [heap] are the same object in both, as in the program.
    The library module [heapq] is embedded from its CPython definition, on
    Python lists used as arrays. *)

From Stdlib Require Import ZArith String Ascii Sorted.
From stdpp Require Import base list gmap strings.

Local Open Scope nat_scope.

(** ** Strict weak orders given by a boolean [<]

    [heapq] and [sorted] only ever use [a < b].  What they guarantee rests on
    [<] being a strict weak order. *)

Record StrictWeak {A : Type} (lt : A → A → bool) : Prop := {
  sw_asym x y : lt x y = true → lt y x = false;
  sw_negtrans x y z : lt y x = false → lt z y = false → lt z x = false
}.

(** ** heapq

    [heap[i]] is [heap !!! i]; [heap[i] = x] is [<[i:=x]> heap].  Both loops
    move a hole through the array and run on fuel: [pos] strictly decreases
    in [_siftdown], and strictly increases below [len(heap)] in [_siftup]. *)

Section heapq.
Context {A : Type} `{!Inhabited A} (lt : A → A → bool).

(** [while pos > startpos: ...] of [_siftdown]; ends with
    [heap[pos] = newitem].  [pos] decreases at every iteration, so fuel [pos]
    is enough and the loop never stops for lack of it. *)
Fixpoint siftdown_loop (fuel : nat) (heap : list A) (newitem : A)
    (startpos pos : nat) : list A :=
  match fuel with
  | 0 => <[pos := newitem]> heap
  | S fuel' =>
      if decide (startpos < pos) then
        let parentpos := (pos - 1) / 2 in        (* (pos - 1) >> 1 *)
        let parent := heap !!! parentpos in
        if lt newitem parent
        then siftdown_loop fuel' (<[pos := parent]> heap) newitem startpos parentpos
        else <[pos := newitem]> heap
      else <[pos := newitem]> heap
  end.

Definition _siftdown (heap : list A) (startpos pos : nat) : list A :=
  let newitem := heap !!! pos in
  siftdown_loop pos heap newitem startpos pos.

(** [while childpos < endpos: ...] of [_siftup]: bubbles the smaller child
    up until a leaf is reached; returns the array and the leaf position.
    [pos] increases below [len(heap)], so fuel [len(heap)] is enough. *)
Fixpoint siftup_loop (fuel : nat) (heap : list A) (pos : nat) : list A * nat :=
  match fuel with
  | 0 => (heap, pos)
  | S fuel' =>
      let endpos := length heap in
      let childpos := 2 * pos + 1 in
      if decide (childpos < endpos) then
        let rightpos := childpos + 1 in
        let childpos :=
          if decide (rightpos < endpos) then
            if negb (lt (heap !!! childpos) (heap !!! rightpos))
            then rightpos else childpos
          else childpos in
        siftup_loop fuel' (<[pos := heap !!! childpos]> heap) childpos
      else (heap, pos)
  end.

Definition _siftup (heap : list A) (pos : nat) : list A :=
  let startpos := pos in
  let newitem := heap !!! pos in
  let '(heap, pos) := siftup_loop (length heap) heap pos in
  _siftdown (<[pos := newitem]> heap) startpos pos.

(** [heappush(heap, item)] *)
Definition heappush (heap : list A) (item : A) : list A :=
  let heap := heap ++ [item] in
  _siftdown heap 0 (length heap - 1).

(** [heappop(heap)]: [None] stands for the [IndexError] of [heap.pop()] on
    an empty list; otherwise the returned item and the new array. *)
Definition heappop (heap : list A) : option (A * list A) :=
  match last heap with
  | None => None
  | Some lastelt =>
      let heap := take (length heap - 1) heap in
      match heap with
      | [] => Some (lastelt, [])
      | returnitem :: _ => Some (returnitem, _siftup (<[0 := lastelt]> heap) 0)
      end
  end.

(** [sorted(l)]: a stable sort by [<]. *)
Fixpoint sorted_insert (x : A) (l : list A) : list A :=
  match l with
  | [] => [x]
  | y :: l' => if lt y x then y :: sorted_insert x l' else x :: l
  end.

Definition sorted (l : list A) : list A := foldr sorted_insert [] l.

(** The heap invariant of [heapq]: [heap[k] <= heap[2*k+1]] and
    [heap[k] <= heap[2*k+2]], as "no child is less than its parent". *)
Definition heap_ok (heap : list A) : Prop :=
  ∀ i, 0 < i < length heap → lt (heap !!! i) (heap !!! ((i - 1) / 2)) = false.

(** The invariant of the two loops, for the array with a hole at [pos]:
    the heap invariant holds between entries other than the hole, and the
    children of the hole are not less than its parent. *)
Definition hole_pre (heap : list A) (pos : nat) : Prop :=
  (∀ i, 0 < i < length heap → i ≠ pos → (i - 1) / 2 ≠ pos →
        lt (heap !!! i) (heap !!! ((i - 1) / 2)) = false) ∧
  (∀ c, 0 < pos → 0 < c < length heap → (c - 1) / 2 = pos →
        lt (heap !!! c) (heap !!! ((pos - 1) / 2)) = false).

(** Moreover [newitem], which is to fill the hole, is not above its
    children. *)
Definition hole_ok (heap : list A) (newitem : A) (pos : nat) : Prop :=
  hole_pre heap pos ∧
  (∀ c, 0 < c < length heap → (c - 1) / 2 = pos → lt (heap !!! c) newitem = false).
End heapq.

(** ** Python values and dicts *)

(** What a caller may pass as [priority]: an [int] (a [bool] is one, with
    value 0 or 1), or something that is not an [int]. *)
Inductive pyobj :=
  | PyInt (z : Z)
  | PyStr (s : string)
  | PyNone.

(** A [dict] with [str] keys: keys are unique and kept in insertion order,
    which is the order of [.values()] and [.items()]. *)
Abbreviation dict V := (list (string * V)).

Section dict.
Context {V : Type}.

(** [k in d] *)
Definition dict_in (k : string) (d : dict V) : bool := bool_decide (k ∈ d.*1).

(** [d[k] = v]: an existing key keeps its position. *)
Fixpoint dict_set (k : string) (v : V) (d : dict V) : dict V :=
  match d with
  | [] => [(k, v)]
  | (k', v') :: d' =>
      if decide (k' = k) then (k, v) :: d' else (k', v') :: dict_set k v d'
  end.

(** [del d[k]] *)
Definition dict_del (k : string) (d : dict V) : dict V :=
  filter (λ kv, kv.1 ≠ k) d.

(** [d.values()] *)
Definition dict_values (d : dict V) : list V := d.*2.
End dict.

(** ** Task *)

Record Task := mkTask {
  name : string;
  priority : Z;
  due_date : string;                (* 'YYYY-MM-DD' *)
  dependencies : gset string
}.

Global Instance Task_inhabited : Inhabited Task :=
  populate (mkTask EmptyString 0%Z EmptyString ∅).

(** [Task.__init__]: [dependencies] is [None] or a list of names;
    [set(dependencies) if dependencies else set()]. *)
Definition Task_init (name : string) (priority : Z) (due_date : string)
    (dependencies : option (list string)) : Task :=
  mkTask name priority due_date
    (match dependencies with
     | Some (d :: ds) => list_to_set (d :: ds)
     | Some [] | None => ∅
     end).

(** [Task.__lt__]: by priority, then by due date.  [str < str] compares code
    points lexicographically, which on UTF-8 encoded strings is the
    lexicographic order of the bytes, [String.ltb]. *)
Definition Task_lt (self other : Task) : bool :=
  if (priority self =? priority other)%Z
  then String.ltb (due_date self) (due_date other)
  else (priority self <? priority other)%Z.

(** *** Persisted records

    The JSON values that [to_dict] writes and [from_dict] reads: a record
    whose fields may be absent.  Documents whose fields have other types than
    the ones written by [to_dict] are not represented. *)
Record task_json := mkTaskJson {
  j_name : option string;
  j_priority : option Z;
  j_due_date : option string;
  j_dependencies : option (list string)
}.

Inductive exn :=
  | KeyError (key : string).

(** [Task.to_dict]; [list(self.dependencies)] enumerates the set. *)
Definition to_dict (self : Task) : task_json :=
  {| j_name := Some (name self);
     j_priority := Some (priority self);
     j_due_date := Some (due_date self);
     j_dependencies := Some (elements (dependencies self)) |}.

(** [Task.from_dict]; [data['name']] and [data['priority']] raise [KeyError]
    on an absent field. *)
Definition from_dict (data : task_json) : exn + Task :=
  let due_date := default "2100-01-01"%string (j_due_date data) in
  let dependencies := default [] (j_dependencies data) in
  match j_name data with
  | None => inl (KeyError "name")
  | Some name =>
      match j_priority data with
      | None => inl (KeyError "priority")
      | Some priority => inr (Task_init name priority due_date (Some dependencies))
      end
  end.

(** ** TaskManager *)

(** The document of [save_tasks]. *)
Record store_json := mkStoreJson {
  j_tasks : option (dict task_json);
  j_completed : option (list string)
}.

(** What is at [self.filename]: nothing, text that [json.load] rejects with
    [JSONDecodeError], or a JSON document. *)
Inductive file :=
  | NoFile
  | Garbage
  | JsonText (data : store_json).

(** A [TaskManager] together with the [Task] objects of the process ([objs],
    a reference is an index into it) and the file at [self.filename]. *)
Record TaskManager := mkTaskManager {
  objs : list Task;
  task_dict : dict nat;
  heap : list nat;
  completed : gset string;
  disk : file
}.

(** What the methods print. *)
Inductive message :=
  | MsgEmptyName            (* El nombre de la tarea no puede estar vacío. *)
  | MsgBadPriority          (* La prioridad debe ser un número entero. *)
  | MsgBadDate              (* Fecha inválida. Usa el formato YYYY-MM-DD. *)
  | MsgDuplicate (name : string)   (* La tarea '...' ya existe. *)
  | MsgAdded (name : string)       (* Tarea '...' añadida. *)
  | MsgNotFound (name : string)    (* La tarea '...' no existe. *)
  | MsgCompleted (name : string)   (* Tarea '...' completada. *)
  | MsgCorrupt.             (* Archivo de tareas corrupto. Se ignorará. *)

(** [a < b] on references to [Task] objects. *)
Definition ref_lt (objs : list Task) (a b : nat) : bool :=
  Task_lt (objs !!! a) (objs !!! b).

(** [not task.dependencies] *)
Definition no_deps (objs : list Task) (ref : nat) : bool :=
  bool_decide (dependencies (objs !!! ref) = ∅).

(** [save_tasks]: the document, and the write to the file. *)
Definition save_data (self : TaskManager) : store_json :=
  {| j_tasks :=
       Some ((λ kv, (kv.1, to_dict (objs self !!! kv.2))) <$> task_dict self);
     j_completed := Some (elements (completed self)) |}.

Definition save_tasks (self : TaskManager) : TaskManager :=
  {| objs := objs self; task_dict := task_dict self; heap := heap self;
     completed := completed self; disk := JsonText (save_data self) |}.

(** [rebuild_heap] *)
Definition rebuild_heap (self : TaskManager) : TaskManager :=
  {| objs := objs self; task_dict := task_dict self;
     heap := foldl (λ heap task,
                      if no_deps (objs self) task
                      then heappush (ref_lt (objs self)) heap task else heap)
                   [] (dict_values (task_dict self));
     completed := completed self; disk := disk self |}.

(** The dict comprehension of [load_tasks]: one new [Task] object per item. *)
Fixpoint load_items (objs : list Task) (d : dict nat)
    (items : dict task_json) : exn + (list Task * dict nat) :=
  match items with
  | [] => inr (objs, d)
  | (name, task_data) :: items' =>
      match from_dict task_data with
      | inl e => inl e
      | inr task => load_items (objs ++ [task]) (dict_set name (length objs) d) items'
      end
  end.

(** [load_tasks]: an exception leaves [self] as it was. *)
Definition load_tasks (self : TaskManager) : exn + (TaskManager * option message) :=
  match disk self with
  | NoFile => inr (self, None)
  | Garbage => inr (self, Some MsgCorrupt)
  | JsonText data =>
      match load_items (objs self) [] (default [] (j_tasks data)) with
      | inl e => inl e
      | inr (objs', task_dict') =>
          inr (rebuild_heap
                 {| objs := objs'; task_dict := task_dict'; heap := heap self;
                    completed := list_to_set (default [] (j_completed data));
                    disk := disk self |}, None)
      end
  end.

(** The fields set by [TaskManager.__init__], in a new process with [f] at
    [filename]. *)
Definition empty_manager (f : file) : TaskManager :=
  {| objs := []; task_dict := []; heap := []; completed := ∅; disk := f |}.

(** [TaskManager.__init__]: those fields, then [self.load_tasks()]. *)
Definition TaskManager_init (f : file) : exn + (TaskManager * option message) :=
  load_tasks (empty_manager f).

(** [task.dependencies.remove(d)] *)
Definition remove_dependency (t : Task) (d : string) : Task :=
  mkTask (name t) (priority t) (due_date t) (dependencies t ∖ {[d]}).

(** The body of the [for task in self.task_dict.values()] loop of
    [complete_task], on the object store and the heap. *)
Definition release (name : string) (st : list Task * list nat) (task : nat)
    : list Task * list nat :=
  let '(objs, heap) := st in
  let t := objs !!! task in
  if bool_decide (name ∈ dependencies t) then
    let objs := <[task := remove_dependency t name]> objs in
    if no_deps objs task
    then (objs, heappush (ref_lt objs) heap task)
    else (objs, heap)
  else (objs, heap).

Definition complete_task (self : TaskManager) (name : string)
    : TaskManager * message :=
  if negb (dict_in name (task_dict self)) then (self, MsgNotFound name)
  else
    let task_dict := dict_del name (task_dict self) in
    let completed := {[name]} ∪ completed self in
    let '(objs, heap) :=
      foldl (release name) (objs self, heap self) (dict_values task_dict) in
    (save_tasks
       {| objs := objs; task_dict := task_dict; heap := heap;
          completed := completed; disk := disk self |},
     MsgCompleted name).

(** [task.name in self.task_dict] for an entry of the heap. *)
Definition live (self : TaskManager) (task : nat) : bool :=
  dict_in (name (objs self !!! task)) (task_dict self).

(** [show_pending_tasks]: the tasks it prints, in the order printed. *)
Definition show_pending_tasks (self : TaskManager) : list nat :=
  let pending := filter (λ task, live self task = true) (heap self) in
  sorted (ref_lt (objs self)) pending.

(** The [while] loop of [get_next_task]; every iteration pops one entry. *)
Fixpoint purge_loop (fuel : nat) (self : TaskManager) (heap : list nat) : list nat :=
  match fuel with
  | 0 => heap
  | S fuel' =>
      match heap with
      | [] => heap
      | head :: _ =>
          if negb (live self head) then
            match heappop (ref_lt (objs self)) heap with
            | Some (_, heap') => purge_loop fuel' self heap'
            | None => heap
            end
          else heap
      end
  end.

(** [get_next_task]: the manager afterwards, and the task returned
    ([None] when it prints that no task is available). *)
Definition get_next_task (self : TaskManager) : TaskManager * option nat :=
  let heap := purge_loop (length (heap self)) self (heap self) in
  ({| objs := objs self; task_dict := task_dict self; heap := heap;
      completed := completed self; disk := disk self |},
   head heap).

(** The tasks of the Active Set by value: name and [Task] fields. *)
Definition active (self : TaskManager) : dict Task :=
  (λ kv, (kv.1, objs self !!! kv.2)) <$> task_dict self.

(** The two library predicates [add_task] tests its arguments with. *)
Class PyLib := {
  str_blank : string → bool;      (* not name.strip() *)
  strptime_ok : string → bool     (* datetime.strptime(s, "%Y-%m-%d") returns *)
}.

Section TaskManager.
Context `{lib : PyLib}.

(** [add_task]: the four guards print and return; otherwise a new [Task]
    object is made, stored under [name], pushed on the heap when it has no
    dependencies, and the file is written. *)
Definition add_task (self : TaskManager) (name : string) (priority : pyobj)
    (due_date : string) (dependencies : option (list string))
    : TaskManager * message :=
  if str_blank name then (self, MsgEmptyName)
  else match priority with
  | PyInt priority =>
      if negb (strptime_ok due_date) then (self, MsgBadDate)
      else if dict_in name (task_dict self) then (self, MsgDuplicate name)
      else
        let task := length (objs self) in
        let objs := objs self ++ [Task_init name priority due_date dependencies] in
        (save_tasks
           {| objs := objs;
              task_dict := dict_set name task (task_dict self);
              heap := if no_deps objs task
                      then heappush (ref_lt objs) (heap self) task
                      else heap self;
              completed := completed self; disk := disk self |},
         MsgAdded name)
  | _ => (self, MsgBadPriority)
  end.

(** *** Runs of the program *)

(** The calls the menu makes on the manager. *)
Inductive op :=
  | AddTask (name : string) (priority : pyobj) (due_date : string)
            (dependencies : option (list string))
  | CompleteTask (name : string)
  | ShowPendingTasks
  | GetNextTask.

Definition run_op (self : TaskManager) (o : op) : TaskManager :=
  match o with
  | AddTask name priority due_date dependencies =>
      (add_task self name priority due_date dependencies).1
  | CompleteTask name => (complete_task self name).1
  | ShowPendingTasks => self
  | GetNextTask => (get_next_task self).1
  end.

Definition run_ops (self : TaskManager) (ops : list op) : TaskManager :=
  foldl run_op self ops.

(** The states of the program: it first starts with no file at [filename],
    or one that [json.load] rejects, which gives the empty manager; it runs
    calls of the menu; and it may be stopped and started again on the file
    it has written. *)
Inductive reachable : TaskManager → Prop :=
  | reach_new f :
      f = NoFile ∨ f = Garbage → reachable (empty_manager f)
  | reach_op self o :
      reachable self → reachable (run_op self o)
  | reach_restart self self' m :
      reachable self →
      TaskManager_init (disk self) = inr (self', m) →
      reachable self'.

(** No call of [ops], run from [self], completes the active task [d]. *)
Fixpoint never_completes (d : string) (self : TaskManager) (ops : list op) : Prop :=
  match ops with
  | [] => True
  | o :: ops' =>
      (o = CompleteTask d → dict_in d (task_dict self) = false) ∧
      never_completes d (run_op self o) ops'
  end.

(** No [add_task] of [ops], run from [self], adds a task under the name of
    a completed one. *)
Fixpoint never_readds (self : TaskManager) (ops : list op) : Prop :=
  match ops with
  | [] => True
  | o :: ops' =>
      (∀ name priority due_date dependencies,
         o = AddTask name priority due_date dependencies →
         (add_task self name priority due_date dependencies).2 = MsgAdded name →
         name ∉ completed self) ∧
      never_readds (run_op self o) ops'
  end.
End TaskManager.

(** *** Well-formed managers

    What holds of the manager between two calls: the keys of [task_dict] are
    the names of its tasks; the heap is a [heapq] heap of tasks without
    dependencies; every task of [task_dict] without dependencies is in the
    heap; and the file holds what [save_tasks] writes for the manager, or
    the manager is still empty. *)
Record wf (self : TaskManager) : Prop := {
  wf_keys : NoDup (task_dict self).*1;
  wf_names : ∀ k task, (k, task) ∈ task_dict self →
    task < length (objs self) ∧ name (objs self !!! task) = k;
  wf_heap : ∀ task, task ∈ heap self →
    task < length (objs self) ∧ dependencies (objs self !!! task) = ∅;
  wf_heap_ok : heap_ok (ref_lt (objs self)) (heap self);
  wf_ready : ∀ k task, (k, task) ∈ task_dict self →
    dependencies (objs self !!! task) = ∅ → task ∈ heap self;
  wf_disk : disk self = JsonText (save_data self) ∨
    ((disk self = NoFile ∨ disk self = Garbage) ∧
     task_dict self = [] ∧ completed self = ∅)
}.

(** How the objects and the heap [st] stand to what they were, [st0], while
    the loop of [complete_task] releases the dependency [d]. *)
Record released (d : string) (st0 st : list Task * list nat) : Prop := {
  rel_length : length st.1 = length st0.1;
  rel_fields : ∀ i, name (st.1 !!! i) = name (st0.1 !!! i) ∧
                    priority (st.1 !!! i) = priority (st0.1 !!! i) ∧
                    due_date (st.1 !!! i) = due_date (st0.1 !!! i);
  rel_deps : ∀ i, dependencies (st.1 !!! i) = dependencies (st0.1 !!! i) ∨
                  dependencies (st.1 !!! i) = dependencies (st0.1 !!! i) ∖ {[d]};
  rel_heap : ∀ i, i ∈ st0.2 → i ∈ st.2;
  rel_ready : ∀ i, dependencies (st.1 !!! i) = ∅ →
                   i ∈ st.2 ∨ dependencies (st0.1 !!! i) = ∅;
  rel_heap_deps : ∀ i, i ∈ st.2 →
                       i < length st.1 ∧ dependencies (st.1 !!! i) = ∅;
  rel_heap_ok : heap_ok (ref_lt st.1) st.2
}.

(** More of what holds between two calls: no two names share a task, no
    task is twice in the heap, and an entry of the heap is the task stored
    under its name, or the task of a completed name. *)
Record tidy (self : TaskManager) : Prop := {
  tidy_tasks : NoDup (dict_values (task_dict self));
  tidy_heap : NoDup (heap self);
  tidy_entries : ∀ t, t ∈ heap self →
    (name (objs self !!! t), t) ∈ task_dict self ∨
    name (objs self !!! t) ∈ completed self
}.

(** An instance of the library predicates on ASCII input: blank is "only
    spaces, tabs and line breaks", a date is [dddd-dd-dd] with a month in
    1..12 and a day in 1..31.  It is used to run the program on examples. *)
Definition ascii_space (c : ascii) : bool :=
  let n := nat_of_ascii c in
  (9 <=? n) && (n <=? 13) || (n =? 32).

Fixpoint ascii_blank (s : string) : bool :=
  match s with
  | EmptyString => true
  | String c s' => ascii_space c && ascii_blank s'
  end.

Definition digit_of (c : ascii) : option nat :=
  let n := nat_of_ascii c in
  if (48 <=? n) && (n <=? 57) then Some (n - 48) else None.

Definition ascii_date (s : string) : bool :=
  match s with
  | String y1 (String y2 (String y3 (String y4 (String "-"
      (String m1 (String m2 (String "-" (String d1 (String d2 EmptyString))))))))) =>
      match digit_of y1, digit_of y2, digit_of y3, digit_of y4,
            digit_of m1, digit_of m2, digit_of d1, digit_of d2 with
      | Some a, Some b, Some c, Some d, Some m1, Some m2, Some d1, Some d2 =>
          let y := 1000 * a + 100 * b + 10 * c + d in
          let m := 10 * m1 + m2 in
          let d := 10 * d1 + d2 in
          (1 <=? y) && (1 <=? m) && (m <=? 12) && (1 <=? d) && (d <=? 31)
      | _, _, _, _, _, _, _, _ => false
      end
  | _ => false
  end.

Definition ascii_lib : PyLib :=
  {| str_blank := ascii_blank; strptime_ok := ascii_date |}.

(** *** Example runs, on [ascii_lib] *)

Definition run_example (ops : list op) : TaskManager :=
  run_ops (lib:=ascii_lib) (empty_manager NoFile) ops.

(** add("A", 2, "2025-01-01", []); add("B", 1, "2025-06-01", []) *)
Definition example_two : TaskManager :=
  run_example [AddTask "A" (PyInt 2) "2025-01-01" (Some []);
               AddTask "B" (PyInt 1) "2025-06-01" (Some [])].

(** add("A", 1, "2025-01-01", ["B"]); add("B", 1, "2025-01-01", []) *)
Definition example_chain : TaskManager :=
  run_example [AddTask "A" (PyInt 1) "2025-01-01" (Some ["B"%string]);
               AddTask "B" (PyInt 1) "2025-01-01" (Some [])].

(** add("A", ...); complete("A"); add("A", ...) *)
Definition example_readd : list op :=
  [AddTask "A" (PyInt 1) "2025-01-01" (Some []);
   CompleteTask "A";
   AddTask "A" (PyInt 1) "2025-01-01" (Some [])].

(** The program started again on the file of [example_readd]. *)
Definition example_restarted : TaskManager :=
  match TaskManager_init (disk (run_example example_readd)) with
  | inr (self, _) => self
  | inl _ => empty_manager NoFile
  end.



(** * Facts *)

(** ** Strict weak orders *)

Section strict_weak.
Context {A : Type} (lt : A → A → bool) (Hsw : StrictWeak lt).

Lemma sw_irrefl x : lt x x = false.
Proof.
  destruct (lt x x) eqn:E; [|done].
  by rewrite (sw_asym lt Hsw x x E) in E.
Qed.

Lemma sw_lt_le x y z : lt x y = true → lt z y = false → lt z x = false.
Proof. intros Hxy Hzy. eapply sw_negtrans; eauto using sw_asym. Qed.
End strict_weak.

(** ** Arrays: overwriting an entry *)

Section array.
Context {A : Type} `{!Inhabited A}.
Implicit Types l : list A.

Lemma insert_Permutation_delete l i x :
  i < length l → <[i:=x]> l ≡ₚ x :: delete i l.
Proof.
  revert i. induction l as [|y l IH]; intros [|i] Hi; simpl in *; try lia.
  - done.
  - rewrite (IH i) by lia. apply Permutation_swap.
Qed.

(** Moving [l[j]] into the hole [i] and filling [j] is filling [i]. *)
Lemma insert_move_hole l i j x :
  i < length l → j < length l → i ≠ j →
  <[j:=x]> (<[i:=l !!! j]> l) ≡ₚ <[i:=x]> l.
Proof.
  intros Hi Hj Hij.
  rewrite (insert_Permutation_delete (<[i:=l !!! j]> l) j x)
    by (rewrite length_insert; lia).
  rewrite (insert_Permutation_delete l i x) by done.
  apply Permutation_skip, (Permutation_cons_inv (a:=l !!! j)).
  rewrite <-(insert_Permutation_delete l i) by done.
  symmetry. apply delete_Permutation.
  rewrite list_lookup_insert_ne by done.
  by apply list_lookup_lookup_total_lt.
Qed.

Lemma insert_lookup_total l i : <[i:=l !!! i]> l = l.
Proof.
  destruct (decide (i < length l)) as [Hi|Hi].
  - by apply list_insert_id, list_lookup_lookup_total_lt.
  - apply list_insert_ge. lia.
Qed.
End array.

(** ** heapq keeps the entries and the heap invariant *)

Section heapq_facts.
Context {A : Type} `{!Inhabited A} (lt : A → A → bool) (Hsw : StrictWeak lt).
Implicit Types heap : list A.

Local Abbreviation parent i := ((i - 1) / 2).

Lemma parent_lt i : 0 < i → parent i < i.
Proof. intros. apply Nat.Div0.div_lt_upper_bound; lia. Qed.

Lemma parent_child i c : parent c = i → 0 < c → c = 2 * i + 1 ∨ c = 2 * i + 2.
Proof.
  intros <- Hc.
  pose proof (Nat.div_mod_eq (c - 1) 2) as Hd.
  pose proof (Nat.mod_upper_bound (c - 1) 2). lia.
Qed.

Lemma parent_left i : parent (2 * i + 1) = i.
Proof. replace (2 * i + 1 - 1) with (i * 2) by lia. apply Nat.div_mul. lia. Qed.

Lemma parent_right i : parent (2 * i + 2) = i.
Proof.
  replace (2 * i + 2 - 1) with (1 + i * 2) by lia.
  rewrite Nat.div_add by lia. done.
Qed.

(** *** The loops keep the length and the entries *)

Lemma length_siftdown_loop fuel heap x sp pos :
  length (siftdown_loop lt fuel heap x sp pos) = length heap.
Proof.
  revert heap pos. induction fuel as [|fuel IH]; intros heap pos; cbn [siftdown_loop siftup_loop fst snd].
  - by rewrite length_insert.
  - case_decide; [|by rewrite length_insert].
    destruct (lt x _); [|by rewrite length_insert].
    by rewrite IH, length_insert.
Qed.

Lemma siftdown_loop_Permutation fuel heap x sp pos :
  pos < length heap → siftdown_loop lt fuel heap x sp pos ≡ₚ <[pos:=x]> heap.
Proof.
  revert heap pos. induction fuel as [|fuel IH]; intros heap pos Hpos; cbn [siftdown_loop siftup_loop fst snd]; [done|].
  case_decide as Hsp; [|done].
  destruct (lt x _); [|done].
  assert (parent pos < pos) by (apply parent_lt; lia).
  rewrite IH by (rewrite length_insert; lia).
  apply insert_move_hole; lia.
Qed.

Lemma siftup_loop_length fuel heap pos :
  length (siftup_loop lt fuel heap pos).1 = length heap.
Proof.
  revert heap pos. induction fuel as [|fuel IH]; intros heap pos; cbn [siftdown_loop siftup_loop fst snd]; [done|].
  case_decide; [|done]. by rewrite IH, length_insert.
Qed.

Lemma siftup_loop_pos fuel heap pos :
  pos < length heap → (siftup_loop lt fuel heap pos).2 < length heap.
Proof.
  revert heap pos. induction fuel as [|fuel IH]; intros heap pos Hpos; cbn [siftdown_loop siftup_loop fst snd]; [done|].
  case_decide as Hc; [|done].
  set (c := if decide (_ < _) then _ else _).
  assert (c < length heap).
  { subst c. case_decide; [|lia]. destruct (negb _); lia. }
  specialize (IH (<[pos:=heap !!! c]> heap) c).
  rewrite length_insert in IH. auto.
Qed.

Lemma siftup_loop_Permutation fuel heap pos x :
  pos < length heap →
  <[(siftup_loop lt fuel heap pos).2 := x]> (siftup_loop lt fuel heap pos).1
  ≡ₚ <[pos:=x]> heap.
Proof.
  revert heap pos. induction fuel as [|fuel IH]; intros heap pos Hpos; cbn [siftdown_loop siftup_loop fst snd]; [done|].
  case_decide as Hc; [|done].
  set (c := if decide (_ < _) then _ else _).
  assert (c < length heap ∧ pos ≠ c) as [??].
  { subst c. case_decide; [|lia]. destruct (negb _); lia. }
  rewrite IH by (rewrite length_insert; lia).
  apply insert_move_hole; lia.
Qed.

Lemma _siftdown_Permutation heap sp pos :
  pos < length heap → _siftdown lt heap sp pos ≡ₚ heap.
Proof.
  intros. unfold _siftdown.
  by rewrite siftdown_loop_Permutation, insert_lookup_total.
Qed.

Lemma _siftup_Permutation heap pos :
  pos < length heap → _siftup lt heap pos ≡ₚ heap.
Proof.
  intros Hpos. unfold _siftup.
  pose proof (siftup_loop_pos (length heap) heap pos Hpos) as Hp.
  pose proof (siftup_loop_length (length heap) heap pos) as Hl.
  pose proof (siftup_loop_Permutation (length heap) heap pos (heap !!! pos) Hpos) as HP.
  destruct (siftup_loop lt (length heap) heap pos) as [heap' pos']; simpl in *.
  rewrite _siftdown_Permutation by (rewrite length_insert; lia).
  by rewrite HP, insert_lookup_total.
Qed.

Lemma heappush_Permutation heap item : heappush lt heap item ≡ₚ item :: heap.
Proof.
  unfold heappush.
  rewrite _siftdown_Permutation by (rewrite length_app; simpl; lia).
  by rewrite Permutation_app_comm.
Qed.

Lemma heappop_Some heap :
  heap ≠ [] →
  ∃ heap', heappop lt heap = Some (heap !!! 0, heap') ∧ heap ≡ₚ heap !!! 0 :: heap'.
Proof.
  intros Hne. unfold heappop.
  destruct (last heap) as [lastelt|] eqn:Hlast; [|by apply last_None in Hlast].
  apply last_Some in Hlast as [rest ->].
  rewrite length_app; simpl.
  rewrite take_app_length' by lia.
  destruct rest as [|returnitem rest]; simpl.
  - by eexists.
  - eexists; split; [done|].
    rewrite _siftup_Permutation by (simpl; lia).
    simpl. apply Permutation_skip. by rewrite <-Permutation_cons_append.
Qed.

(** *** The loops restore the heap invariant *)

Ltac lookup_insert :=
  repeat first
    [ rewrite list_lookup_total_insert_eq by (rewrite ?length_insert; lia)
    | rewrite list_lookup_total_insert_ne by lia ].

Lemma hole_ok_insert heap x y pos :
  hole_ok lt heap x pos → hole_ok lt (<[pos:=y]> heap) x pos.
Proof.
  intros [[HA HC] HB]. repeat split; intros i; rewrite length_insert; intros.
  - lookup_insert. auto.
  - assert (parent pos < pos) by (apply parent_lt; lia).
    assert (pos < i) by (destruct (parent_child pos i); lia).
    lookup_insert. auto.
  - assert (i ≠ pos) by (destruct (parent_child pos i); lia).
    lookup_insert. auto.
Qed.

Lemma hole_fill heap x pos :
  pos < length heap → hole_ok lt heap x pos →
  (0 < pos → lt x (heap !!! parent pos) = false) →
  heap_ok lt (<[pos:=x]> heap).
Proof.
  intros Hpos [[HA HC] HB] Hx i. rewrite length_insert. intros Hi.
  destruct (decide (i = pos)) as [->|Hne].
  - assert (parent pos < pos) by (apply parent_lt; lia).
    lookup_insert. apply Hx. lia.
  - destruct (decide (parent i = pos)) as [Hp|Hp].
    + rewrite Hp. lookup_insert. auto.
    + lookup_insert. auto.
Qed.

Lemma hole_step_up heap x pos :
  0 < pos < length heap → hole_ok lt heap x pos →
  lt x (heap !!! parent pos) = true →
  hole_ok lt (<[pos:=heap !!! parent pos]> heap) x (parent pos).
Proof.
  intros Hpos [[HA HC] HB] Hlt.
  assert (parent pos < pos) as Hpp by (apply parent_lt; lia).
  repeat split; intros i; rewrite length_insert; intros.
  - destruct (decide (i = pos)) as [->|Hne]; [done|].
    destruct (decide (parent i = pos)) as [Hp|Hp].
    + rewrite Hp. lookup_insert. apply HC; lia.
    + lookup_insert. auto.
  - assert (parent (parent pos) < parent pos) by (apply parent_lt; lia).
    lookup_insert.
    destruct (decide (i = pos)) as [->|Hne].
    + lookup_insert. apply HA; lia.
    + lookup_insert.
      apply (sw_negtrans lt Hsw _ (heap !!! parent pos)).
      * apply HA; lia.
      * replace (parent pos) with (parent i) by done. apply HA; lia.
  - destruct (decide (i = pos)) as [->|Hne].
    + lookup_insert. by apply (sw_asym lt Hsw).
    + lookup_insert. apply (sw_lt_le lt Hsw _ (heap !!! parent pos)); [done|].
      replace (parent pos) with (parent i) by done. apply HA; lia.
Qed.

Lemma siftdown_loop_ok fuel heap x pos :
  pos ≤ fuel → pos < length heap → hole_ok lt heap x pos →
  heap_ok lt (siftdown_loop lt fuel heap x 0 pos).
Proof.
  revert heap pos. induction fuel as [|fuel IH]; intros heap pos Hf Hpos Hok;
    cbn [siftdown_loop].
  - apply hole_fill; [done..|lia].
  - case_decide as Hsp; [|apply hole_fill; [done..|lia]].
    destruct (lt x _) eqn:Hlt; [|by apply hole_fill].
    assert (parent pos < pos) by (apply parent_lt; lia).
    apply IH; [lia|rewrite length_insert; lia|].
    by apply hole_step_up.
Qed.

Lemma _siftdown_ok heap pos :
  pos < length heap → hole_ok lt heap (heap !!! pos) pos → heap_ok lt (_siftdown lt heap 0 pos).
Proof. intros. by apply siftdown_loop_ok. Qed.

Lemma heap_ok_nil : heap_ok lt [].
Proof. intros i; simpl; lia. Qed.

Lemma heappush_ok heap item : heap_ok lt heap → heap_ok lt (heappush lt heap item).
Proof.
  intros Hok. unfold heappush. rewrite length_app; simpl.
  replace (length heap + 1 - 1) with (length heap) by lia.
  apply _siftdown_ok; [rewrite length_app; simpl; lia|].
  repeat split; intros i; rewrite length_app; cbn [length]; intros.
  - assert (parent i < i) by (apply parent_lt; lia).
    rewrite !lookup_total_app_l by lia. apply Hok. lia.
  - destruct (parent_child (length heap) i); lia.
  - destruct (parent_child (length heap) i); lia.
Qed.

Lemma hole_step_down heap pos c :
  hole_pre lt heap pos → 0 < c < length heap → parent c = pos →
  (∀ s, 0 < s < length heap → parent s = pos → lt (heap !!! s) (heap !!! c) = false) →
  hole_pre lt (<[pos:=heap !!! c]> heap) c.
Proof.
  intros [HA HC] Hc Hp Hmin.
  assert (pos < c) by (subst pos; apply parent_lt; lia).
  split; intros i; rewrite length_insert; intros.
  - destruct (decide (i = pos)) as [->|Hne].
    + assert (parent pos < pos) by (apply parent_lt; lia).
      lookup_insert. apply HC; [lia|lia|done].
    + destruct (decide (parent i = pos)) as [Hpi|Hpi].
      * rewrite Hpi. lookup_insert. apply Hmin; [lia|done].
      * lookup_insert. apply HA; lia.
  - rewrite Hp. assert (c < i) by (destruct (parent_child c i); lia).
    lookup_insert.
    replace (heap !!! c) with (heap !!! parent i) by (f_equal; done).
    apply HA; lia.
Qed.

Lemma siftup_loop_ok fuel heap pos :
  length heap ≤ fuel + pos → pos < length heap → hole_pre lt heap pos →
  hole_pre lt (siftup_loop lt fuel heap pos).1 (siftup_loop lt fuel heap pos).2 ∧
  length heap ≤ 2 * (siftup_loop lt fuel heap pos).2 + 1.
Proof.
  revert heap pos. induction fuel as [|fuel IH]; intros heap pos Hf Hpos Hpre;
    cbn [siftup_loop fst snd]; [split; [done|lia]|].
  destruct (decide (2 * pos + 1 < length heap)) as [Hc|Hc];
    [|split; [done|cbn [snd]; lia]].
  set (c := if decide (_ < _) then _ else _).
  assert ((c = 2 * pos + 1 ∨ c = 2 * pos + 2) ∧ c < length heap ∧
          ∀ s, 0 < s < length heap → parent s = pos →
               lt (heap !!! s) (heap !!! c) = false) as (Hc12 & Hclen & Hmin).
  { subst c. case_decide as Hr.
    - destruct (lt (heap !!! (2 * pos + 1)) (heap !!! (2 * pos + 1 + 1))) eqn:Hlt;
        cbn [negb]; (split; [lia|split; [lia|]]); intros s Hs Hps;
        destruct (parent_child pos s Hps ltac:(lia)) as [->| ->].
      + by apply (sw_irrefl lt Hsw).
      + replace (2 * pos + 2) with (2 * pos + 1 + 1) by lia.
        by apply (sw_asym lt Hsw).
      + replace (2 * pos + 2) with (2 * pos + 1 + 1) in Hlt |- * by lia. done.
      + replace (2 * pos + 1 + 1) with (2 * pos + 2) by lia.
        by apply (sw_irrefl lt Hsw).
    - split; [lia|split; [lia|]]. intros s Hs Hps.
      destruct (parent_child pos s Hps ltac:(lia)) as [->| ->]; [|lia].
      by apply (sw_irrefl lt Hsw). }
  assert (parent c = pos) as Hpc.
  { destruct Hc12 as [-> | ->]; [apply parent_left|apply parent_right]. }
  destruct (IH (<[pos:=heap !!! c]> heap) c) as [IH1 IH2].
  - rewrite length_insert. lia.
  - rewrite length_insert. lia.
  - apply hole_step_down; [done|lia|done|done].
  - rewrite length_insert in IH2. done.
Qed.

Lemma _siftup_ok heap :
  heap ≠ [] → hole_pre lt heap 0 → heap_ok lt (_siftup lt heap 0).
Proof.
  intros Hne Hpre. assert (0 < length heap) as Hlen by (destruct heap; simpl; [done|lia]).
  unfold _siftup.
  pose proof (siftup_loop_pos (length heap) heap 0 Hlen) as Hp.
  pose proof (siftup_loop_length (length heap) heap 0) as Hl.
  destruct (siftup_loop_ok (length heap) heap 0) as [H1 H2]; [lia|done|done|].
  destruct (siftup_loop lt (length heap) heap 0) as [heap' pos']; simpl in *.
  unfold _siftdown. rewrite list_lookup_total_insert_eq by lia.
  apply siftdown_loop_ok; [done|rewrite length_insert; lia|].
  apply hole_ok_insert. split; [done|].
  intros c Hc Hpc. destruct (parent_child pos' c); lia.
Qed.

Lemma heappop_ok heap r heap' :
  heap_ok lt heap → heappop lt heap = Some (r, heap') → heap_ok lt heap'.
Proof.
  intros Hok. unfold heappop.
  destruct (last heap) as [lastelt|] eqn:Hlast; [|done].
  apply last_Some in Hlast as [rest ->].
  rewrite length_app; simpl. rewrite take_app_length' by lia.
  destruct rest as [|returnitem rest]; intros [= <- <-]; [apply heap_ok_nil|].
  apply _siftup_ok; [done|].
  split; intros i Hi; intros; [|lia].
  change (lastelt :: rest) with (<[0:=lastelt]> (returnitem :: rest)) in *.
  rewrite length_insert in Hi.
  assert (parent i < i) by (apply parent_lt; lia).
  rewrite !list_lookup_total_insert_ne by lia.
  specialize (Hok i). rewrite length_app in Hok.
  rewrite !lookup_total_app_l in Hok by lia. apply Hok. lia.
Qed.

(** *** The root of a heap is a least entry *)

Lemma heap_ok_root heap i :
  heap_ok lt heap → i < length heap → lt (heap !!! i) (heap !!! 0) = false.
Proof.
  intros Hok. induction (lt_wf i) as [i _ IH]. intros Hi.
  destruct (decide (i = 0)) as [->|Hne]; [by apply (sw_irrefl lt Hsw)|].
  assert (parent i < i) by (apply parent_lt; lia).
  apply (sw_negtrans lt Hsw _ (heap !!! parent i)); [apply IH; lia|apply Hok; lia].
Qed.

Lemma heap_ok_head heap r x :
  heap_ok lt heap → head heap = Some r → x ∈ heap → lt x r = false.
Proof.
  intros Hok Hr Hx.
  apply list_elem_of_lookup_total in Hx as (i & Hi & <-).
  rewrite head_lookup in Hr. apply list_lookup_total_correct in Hr as <-.
  by apply heap_ok_root.
Qed.

(** *** sorted *)

Lemma sorted_insert_Permutation x (l : list A) : sorted_insert lt x l ≡ₚ x :: l.
Proof.
  induction l as [|y l IH]; simpl; [done|].
  destruct (lt y x); [|done]. rewrite IH. apply Permutation_swap.
Qed.

Lemma sorted_Permutation (l : list A) : sorted lt l ≡ₚ l.
Proof.
  induction l as [|y l IH]; simpl; [done|].
  by rewrite sorted_insert_Permutation, IH.
Qed.
End heapq_facts.

(** ** The order of tasks *)

Lemma ascii_compare_N a b : Ascii.compare a b = (N_of_ascii a ?= N_of_ascii b)%N.
Proof. done. Qed.

Lemma string_compare_le_trans a b c :
  String.compare a b ≠ Gt → String.compare b c ≠ Gt → String.compare a c ≠ Gt.
Proof.
  revert b c. induction a as [|x a IH]; intros [|y b] [|z c]; simpl; try done.
  rewrite !ascii_compare_N.
  destruct (N.compare_spec (N_of_ascii x) (N_of_ascii y)) as [Hxy|Hxy|Hxy];
    destruct (N.compare_spec (N_of_ascii y) (N_of_ascii z)) as [Hyz|Hyz|Hyz];
    try done;
    destruct (N.compare_spec (N_of_ascii x) (N_of_ascii z)) as [Hxz|Hxz|Hxz];
    try done; try lia.
  apply IH.
Qed.

Lemma string_ltb_asym a b : String.ltb a b = true → String.ltb b a = false.
Proof.
  unfold String.ltb. rewrite (String.compare_antisym b a).
  by destruct (String.compare a b).
Qed.

Lemma string_ltb_negtrans a b c :
  String.ltb b a = false → String.ltb c b = false → String.ltb c a = false.
Proof.
  unfold String.ltb. intros Hba Hcb.
  pose proof (string_compare_le_trans a b c) as Ht.
  rewrite (String.compare_antisym b a) in Hba.
  rewrite (String.compare_antisym c b) in Hcb.
  rewrite (String.compare_antisym c a).
  destruct (String.compare a b), (String.compare b c), (String.compare a c);
    simpl in *; try done; exfalso; by apply Ht.
Qed.

Lemma Task_lt_strict_weak : StrictWeak Task_lt.
Proof.
  split; unfold Task_lt.
  - intros a b.
    destruct (Z.eqb_spec (priority a) (priority b)) as [Heq|Hne].
    + rewrite (proj2 (Z.eqb_eq _ _) (eq_sym Heq)). apply string_ltb_asym.
    + destruct (Z.eqb_spec (priority b) (priority a)) as [?|_]; [congruence|].
      intros ?%Z.ltb_lt. apply Z.ltb_ge. lia.
  - intros a b c.
    destruct (Z.eqb_spec (priority b) (priority a)) as [Hba|Hba];
      destruct (Z.eqb_spec (priority c) (priority b)) as [Hcb|Hcb];
      destruct (Z.eqb_spec (priority c) (priority a)) as [Hca|Hca];
      rewrite ?Z.ltb_ge; try lia; try congruence.
    apply string_ltb_negtrans.
Qed.

Lemma ref_lt_strict_weak objs : StrictWeak (ref_lt objs).
Proof.
  split; unfold ref_lt; intros.
  - by apply (sw_asym _ Task_lt_strict_weak).
  - by eapply (sw_negtrans _ Task_lt_strict_weak).
Qed.

(** [a < b] only reads the priorities and due dates. *)
Lemma ref_lt_ext objs objs' a b :
  priority (objs' !!! a) = priority (objs !!! a) →
  due_date (objs' !!! a) = due_date (objs !!! a) →
  priority (objs' !!! b) = priority (objs !!! b) →
  due_date (objs' !!! b) = due_date (objs !!! b) →
  ref_lt objs' a b = ref_lt objs a b.
Proof. unfold ref_lt, Task_lt. by intros -> -> -> ->. Qed.

Lemma heap_ok_ext {A} `{!Inhabited A} (lt lt' : A → A → bool) (heap : list A) :
  (∀ x y, x ∈ heap → y ∈ heap → lt' x y = lt x y) →
  heap_ok lt heap → heap_ok lt' heap.
Proof.
  intros Hext Hok i Hi.
  assert ((i - 1) / 2 < i) by (apply Nat.Div0.div_lt_upper_bound; lia).
  rewrite Hext; [by apply Hok|apply list_elem_of_lookup_total_2; lia..].
Qed.

(** ** Dicts *)

Section dict_facts.
Context {V : Type}.
Implicit Types d : dict V.

Lemma dict_in_true k d : dict_in k d = true ↔ k ∈ d.*1.
Proof. unfold dict_in. by rewrite bool_decide_eq_true. Qed.

Lemma dict_in_false k d : dict_in k d = false ↔ k ∉ d.*1.
Proof. unfold dict_in. by rewrite bool_decide_eq_false. Qed.

Lemma dict_in_elem k v d : (k, v) ∈ d → dict_in k d = true.
Proof.
  intros Hin. apply dict_in_true, list_elem_of_fmap. by exists (k, v).
Qed.

Lemma dict_set_new k v d : k ∉ d.*1 → dict_set k v d = d ++ [(k, v)].
Proof.
  induction d as [|[k' v'] d IH]; simpl; [done|].
  rewrite not_elem_of_cons. intros [Hne Hni].
  rewrite decide_False by done. by rewrite IH.
Qed.

Lemma dict_del_elem k k' v d : (k', v) ∈ dict_del k d ↔ k' ≠ k ∧ (k', v) ∈ d.
Proof. unfold dict_del. by rewrite list_elem_of_filter. Qed.

Lemma dict_del_keys k d : NoDup d.*1 → NoDup (dict_del k d).*1.
Proof.
  unfold dict_del. induction d as [|[k' v'] d IH]; [done|].
  rewrite fmap_cons, NoDup_cons. intros [Hni Hnd].
  rewrite filter_cons. case_decide; [|by apply IH].
  rewrite fmap_cons. apply NoDup_cons. split; [|by apply IH].
  intros ([k2 v2] & Heq & Hin)%list_elem_of_fmap.
  apply list_elem_of_filter in Hin as [_ Hin].
  apply Hni, list_elem_of_fmap. by exists (k2, v2).
Qed.

Lemma dict_del_not_in k d : k ∉ (dict_del k d).*1.
Proof.
  intros ([k2 v2] & Heq & Hin)%list_elem_of_fmap.
  apply dict_del_elem in Hin as [Hne _]. by apply Hne.
Qed.
End dict_facts.

(** ** Task records *)

Lemma from_dict_to_dict t : from_dict (to_dict t) = inr t.
Proof.
  destruct t as [n p d deps]. unfold from_dict, to_dict, Task_init; simpl.
  do 2 f_equal.
  transitivity (list_to_set (C:=gset string) (elements deps)).
  - by destruct (elements deps).
  - apply list_to_set_elements_L.
Qed.

(** ** The manager stays well formed *)

Lemma elem_of_heappush (lt : nat → nat → bool) heap item x :
  x ∈ heappush lt heap item ↔ x = item ∨ x ∈ heap.
Proof. by rewrite heappush_Permutation, elem_of_cons. Qed.

Lemma no_deps_true objs task :
  no_deps objs task = true ↔ dependencies (objs !!! task) = ∅.
Proof. unfold no_deps. by rewrite bool_decide_eq_true. Qed.

Lemma save_data_save_tasks self : save_data (save_tasks self) = save_data self.
Proof. done. Qed.

Lemma wf_save_tasks self :
  NoDup (task_dict self).*1 →
  (∀ k task, (k, task) ∈ task_dict self →
     task < length (objs self) ∧ name (objs self !!! task) = k) →
  (∀ task, task ∈ heap self →
     task < length (objs self) ∧ dependencies (objs self !!! task) = ∅) →
  heap_ok (ref_lt (objs self)) (heap self) →
  (∀ k task, (k, task) ∈ task_dict self →
     dependencies (objs self !!! task) = ∅ → task ∈ heap self) →
  wf (save_tasks self).
Proof. intros. split; simpl; auto. Qed.

Lemma wf_empty f : f = NoFile ∨ f = Garbage → wf (empty_manager f).
Proof.
  intros Hf. split; simpl; auto.
  - constructor.
  - intros ?? []%elem_of_nil.
  - intros ? []%elem_of_nil.
  - apply heap_ok_nil.
  - intros ?? []%elem_of_nil.
Qed.

Section wf_facts.
Context `{lib : PyLib}.

Lemma wf_add_task self n pr dd deps :
  wf self → wf (add_task self n pr dd deps).1.
Proof.
  intros Hwf. unfold add_task.
  destruct (str_blank n); [done|].
  destruct pr as [p| |]; [|done..].
  destruct (strptime_ok dd); [|done]. cbn [negb].
  destruct (dict_in n (task_dict self)) eqn:Hin; [done|].
  apply dict_in_false in Hin. cbn [fst].
  set (t := Task_init n p dd deps).
  assert (∀ i, i < length (objs self) → (objs self ++ [t]) !!! i = objs self !!! i)
    as Hold by (intros; by apply lookup_total_app_l).
  assert ((objs self ++ [t]) !!! length (objs self) = t) as Hnew
    by (by apply list_lookup_total_middle).
  apply wf_save_tasks; cbn [objs task_dict heap completed disk].
  - rewrite dict_set_new, fmap_app by done. apply NoDup_app.
    split; [apply Hwf|]. split; [|apply NoDup_singleton].
    intros k Hk ->%list_elem_of_singleton. done.
  - intros k task. rewrite dict_set_new, elem_of_app, length_app by done.
    intros [Hkt|[= -> ->]%list_elem_of_singleton].
    + destruct (wf_names _ Hwf k task Hkt) as [Hlt Hn].
      rewrite Hold by done. split; [lia|done].
    + rewrite Hnew. split; [simpl; lia|done].
  - intros task Htask. rewrite length_app.
    assert (task ∈ heap self ∨
            task = length (objs self) ∧ dependencies t = ∅) as [Hh|[-> Hd]].
    { destruct (no_deps _ _) eqn:Hnd; [|by left].
      apply elem_of_heappush in Htask as [->|?]; [right|by left].
      apply no_deps_true in Hnd. by rewrite Hnew in Hnd. }
    + destruct (wf_heap _ Hwf task Hh) as [Hlt Hd].
      rewrite Hold by done. split; [lia|done].
    + rewrite Hnew. split; [simpl; lia|done].
  - assert (heap_ok (ref_lt (objs self ++ [t])) (heap self)) as Hok.
    { eapply heap_ok_ext; [|apply Hwf].
      intros x y Hx%(wf_heap _ Hwf) Hy%(wf_heap _ Hwf).
      apply ref_lt_ext; rewrite Hold; tauto. }
    destruct (no_deps _ _); [|done].
    apply heappush_ok; [apply ref_lt_strict_weak|done].
  - intros k task. rewrite dict_set_new, elem_of_app by done.
    intros [Hkt|[= -> ->]%list_elem_of_singleton] Hd.
    + destruct (wf_names _ Hwf k task Hkt) as [Hlt Hn].
      rewrite Hold in Hd by done.
      pose proof (wf_ready _ Hwf k task Hkt Hd).
      destruct (no_deps _ _); [|done]. apply elem_of_heappush. by right.
    + apply no_deps_true in Hd. rewrite Hd. apply elem_of_heappush. by left.
Qed.
End wf_facts.

(** ** complete_task: the release loop *)

Lemma lookup_total_ge_length {A} `{!Inhabited A} (l : list A) i :
  length l ≤ i → l !!! i = inhabitant.
Proof. intros. by rewrite list_lookup_total_alt, lookup_ge_None_2. Qed.

Lemma deps_in_range objs task d :
  d ∈ dependencies (objs !!! task) → task < length objs.
Proof.
  intros Hd. destruct (decide (task < length objs)); [done|].
  rewrite lookup_total_ge_length in Hd by lia. set_solver.
Qed.

Lemma released_refl d st :
  (∀ i, i ∈ st.2 → i < length st.1 ∧ dependencies (st.1 !!! i) = ∅) →
  heap_ok (ref_lt st.1) st.2 → released d st st.
Proof. intros. split; auto. Qed.

Lemma release_step d st0 st task :
  released d st0 st →
  released d st0 (release d st task) ∧
  d ∉ dependencies ((release d st task).1 !!! task).
Proof.
  destruct st as [objs heap]. intros Hrel. unfold release.
  case_bool_decide as Hd; [|done].
  pose proof (deps_in_range _ _ _ Hd) as Hlt.
  set (t := objs !!! task) in *.
  set (objs' := <[task:=remove_dependency t d]> objs).
  assert (objs' !!! task = remove_dependency t d) as Htask
    by (by apply list_lookup_total_insert_eq).
  assert (∀ i, i ≠ task → objs' !!! i = objs !!! i) as Hother
    by (intros; by apply list_lookup_total_insert_ne).
  assert (∀ i, name (objs' !!! i) = name (objs !!! i) ∧
               priority (objs' !!! i) = priority (objs !!! i) ∧
               due_date (objs' !!! i) = due_date (objs !!! i)) as Hfields.
  { intros i. destruct (decide (i = task)) as [->|Hne]; [by rewrite Htask|].
    by rewrite Hother. }
  assert (task ∉ heap) as Hnh.
  { intros [_ He]%(rel_heap_deps _ _ _ Hrel). simpl in He. fold t in He. set_solver. }
  assert (heap_ok (ref_lt objs') heap) as Hok.
  { eapply heap_ok_ext; [|apply (rel_heap_ok _ _ _ Hrel)].
    intros x y _ _. apply ref_lt_ext; apply Hfields. }
  assert (dependencies (objs' !!! task) = dependencies t ∖ {[d]}) as Hdeps
    by (by rewrite Htask).
  set (heap' := if no_deps objs' task then heappush (ref_lt objs') heap task else heap).
  assert (∀ i, i ∈ heap' ↔ i ∈ heap ∨ (i = task ∧ dependencies (objs' !!! task) = ∅))
    as Hheap'.
  { intros i. subst heap'. destruct (no_deps objs' task) eqn:Hnd.
    - apply no_deps_true in Hnd. rewrite elem_of_heappush. naive_solver.
    - apply bool_decide_eq_false in Hnd. naive_solver. }
  assert (released d st0 (objs', heap') ∧ d ∉ dependencies (objs' !!! task)) as Hgoal.
  { split; [|rewrite Hdeps; set_solver].
    split; cbn [fst snd].
    - unfold objs'. rewrite length_insert. apply Hrel.
    - intros i. destruct (Hfields i) as (-> & -> & ->). apply Hrel.
    - intros i. destruct (decide (i = task)) as [->|Hne].
      + right. rewrite Hdeps. fold t.
        destruct (rel_deps _ _ _ Hrel task) as [He|He]; simpl in He; fold t in He;
          rewrite He; set_solver.
      + rewrite Hother by done. apply Hrel.
    - intros i Hi. apply Hheap'. left. by apply (rel_heap _ _ _ Hrel).
    - intros i Hi. destruct (decide (i = task)) as [->|Hne].
      + left. apply Hheap'. by right.
      + rewrite Hother in Hi by done.
        destruct (rel_ready _ _ _ Hrel i Hi) as [?|?]; [left|by right].
        apply Hheap'. by left.
    - intros i [Hi|[-> Hi]]%Hheap'.
      + assert (i ≠ task) by (by intros ->).
        unfold objs'. rewrite length_insert. fold objs'. rewrite Hother by done.
        by apply (rel_heap_deps _ _ _ Hrel).
      + unfold objs'. by rewrite length_insert.
    - subst heap'. destruct (no_deps objs' task); [|done].
      apply heappush_ok; [apply ref_lt_strict_weak|done]. }
  subst heap'. by destruct (no_deps objs' task).
Qed.

Lemma released_stable d st0 st i :
  released d st0 st → d ∉ dependencies (st0.1 !!! i) → d ∉ dependencies (st.1 !!! i).
Proof. intros Hrel Hd. destruct (rel_deps _ _ _ Hrel i) as [-> | ->]; set_solver. Qed.

Lemma release_loop d st0 l :
  (∀ i, i ∈ st0.2 → i < length st0.1 ∧ dependencies (st0.1 !!! i) = ∅) →
  heap_ok (ref_lt st0.1) st0.2 →
  released d st0 (foldl (release d) st0 l) ∧
  ∀ i, i ∈ l → d ∉ dependencies ((foldl (release d) st0 l).1 !!! i).
Proof.
  intros Hh Hok. induction l as [|task l [IH1 IH2]] using rev_ind.
  - split; [by apply released_refl|]. intros ? []%elem_of_nil.
  - rewrite foldl_snoc.
    destruct (release_step d st0 (foldl (release d) st0 l) task IH1) as [Hrel Hd].
    split; [done|].
    intros i [Hi| ->%list_elem_of_singleton]%elem_of_app; [|done].
    destruct (decide (i = task)) as [->|Hne]; [done|].
    specialize (IH2 i Hi). revert IH2.
    generalize (foldl (release d) st0 l). intros [objs heap]. unfold release.
    case_bool_decide; [|done].
    intros Hn. destruct (no_deps _ _); cbn [fst];
      by rewrite list_lookup_total_insert_ne.
Qed.

(** What [complete_task] does on an active name. *)
Lemma complete_task_active self n :
  dict_in n (task_dict self) = true →
  complete_task self n =
    (save_tasks
       {| objs := (foldl (release n) (objs self, heap self)
                     (dict_values (dict_del n (task_dict self)))).1;
          task_dict := dict_del n (task_dict self);
          heap := (foldl (release n) (objs self, heap self)
                     (dict_values (dict_del n (task_dict self)))).2;
          completed := {[n]} ∪ completed self; disk := disk self |},
     MsgCompleted n).
Proof.
  intros Hin. unfold complete_task. rewrite Hin. cbn [negb].
  by destruct (foldl _ _ _).
Qed.

Lemma complete_task_inactive self n :
  dict_in n (task_dict self) = false → complete_task self n = (self, MsgNotFound n).
Proof. intros Hin. unfold complete_task. by rewrite Hin. Qed.

Lemma wf_complete_task self n : wf self → wf (complete_task self n).1.
Proof.
  intros Hwf. destruct (dict_in n (task_dict self)) eqn:Hin;
    [|by rewrite complete_task_inactive].
  rewrite complete_task_active by done. cbn [fst].
  destruct (release_loop n (objs self, heap self)
              (dict_values (dict_del n (task_dict self)))) as [Hrel _];
    [apply Hwf..|].
  set (st := foldl _ _ _) in *.
  apply wf_save_tasks; cbn [objs task_dict heap completed disk].
  - apply dict_del_keys, Hwf.
  - intros k task [_ Hkt]%dict_del_elem.
    destruct (wf_names _ Hwf k task Hkt) as [Hlt Hn].
    rewrite (rel_length _ _ _ Hrel).
    destruct (rel_fields _ _ _ Hrel task) as (-> & _). done.
  - apply Hrel.
  - apply Hrel.
  - intros k task [_ Hkt]%dict_del_elem Hd.
    destruct (rel_ready _ _ _ Hrel task Hd) as [?|Hd0]; [done|].
    apply (rel_heap _ _ _ Hrel). by apply (wf_ready _ Hwf k).
Qed.

(** ** get_next_task: the lazy purge *)

Section purge_facts.
Context (self : TaskManager).

Lemma heappop_length (lt : nat → nat → bool) heap r heap' :
  heappop lt heap = Some (r, heap') → length heap = S (length heap').
Proof.
  intros Hpop. destruct (decide (heap = [])) as [->|Hne]; [done|].
  destruct (heappop_Some lt heap Hne) as (h & Hh & HP).
  rewrite Hh in Hpop. injection Hpop as _ <-.
  by rewrite HP at 1.
Qed.

(** With fuel for every entry, the loop ends on an empty heap or on a head
    whose name is in [task_dict]. *)
Lemma purge_loop_head fuel heap r :
  length heap ≤ fuel →
  head (purge_loop fuel self heap) = Some r → live self r = true.
Proof.
  revert heap. induction fuel as [|fuel IH]; intros heap Hf; cbn [purge_loop].
  - destruct heap; [done|simpl in Hf; lia].
  - destruct heap as [|h heap0] eqn:Heq; [done|].
    destruct (live self h) eqn:Hlive; cbn [negb]; [by intros [= <-]|].
    destruct (heappop _ _) as [[r' heap']|] eqn:Hpop.
    + apply heappop_length in Hpop. apply IH. simpl in *. lia.
    + by destruct (heappop_Some (ref_lt (objs self)) (h :: heap0)) as (? & ? & ?);
        [|congruence].
Qed.

(** The loop leaves a heap alone whose head is live. *)
Lemma purge_loop_done fuel heap :
  (∀ r, head heap = Some r → live self r = true) →
  purge_loop fuel self heap = heap.
Proof.
  intros Hhead. destruct fuel; [done|]. cbn [purge_loop].
  destruct heap as [|h heap0]; [done|].
  by rewrite (Hhead h).
Qed.

Lemma purge_loop_spec fuel heap :
  heap_ok (ref_lt (objs self)) heap →
  heap_ok (ref_lt (objs self)) (purge_loop fuel self heap) ∧
  (∀ x, x ∈ purge_loop fuel self heap → x ∈ heap) ∧
  (∀ x, x ∈ heap → live self x = true → x ∈ purge_loop fuel self heap).
Proof.
  revert heap. induction fuel as [|fuel IH]; intros heap Hok; cbn [purge_loop];
    [done|].
  destruct heap as [|h heap0] eqn:Heq; [done|].
  destruct (live self h) eqn:Hlive; cbn [negb]; [done|].
  destruct (heappop_Some (ref_lt (objs self)) (h :: heap0)) as (heap' & Hpop & HP);
    [done|].
  rewrite Hpop. change ((h :: heap0) !!! 0) with h in *.
  destruct (IH heap') as (IH1 & IH2 & IH3).
  { by apply (heappop_ok _ (ref_lt_strict_weak _) (h :: heap0) h). }
  split; [done|]. split.
  - intros x Hx%IH2. rewrite HP. by right.
  - intros x Hx Hl. apply IH3; [|done].
    rewrite HP in Hx. apply elem_of_cons in Hx as [->|?]; [congruence|done].
Qed.
End purge_facts.

Lemma wf_get_next_task self : wf self → wf (get_next_task self).1.
Proof.
  intros Hwf. unfold get_next_task. cbn [fst].
  destruct (purge_loop_spec self (length (heap self)) (heap self)) as (H1 & H2 & H3);
    [apply Hwf|].
  split; cbn [objs task_dict heap completed disk]; try apply Hwf.
  - intros task Ht%H2. by apply Hwf.
  - done.
  - intros k task Hkt Hd. apply H3; [by apply (wf_ready _ Hwf k)|].
    unfold live. destruct (wf_names _ Hwf k task Hkt) as [_ ->].
    by apply (dict_in_elem k task).
Qed.

(** ** save_tasks and load_tasks *)

Lemma save_data_active self :
  save_data self =
    {| j_tasks := Some ((λ kt, (kt.1, to_dict kt.2)) <$> active self);
       j_completed := Some (elements (completed self)) |}.
Proof.
  unfold save_data, active. f_equal. f_equal.
  rewrite <-list_fmap_compose. by apply list_fmap_ext.
Qed.

(** Reading back the items written for [td]: one new object per item, in
    the order of [td]. *)
Lemma load_items_saved (objs : list Task) (td : dict nat) (objs0 : list Task) (d0 : dict nat) :
  NoDup (d0.*1 ++ td.*1) →
  load_items objs0 d0 ((λ kv, (kv.1, to_dict (objs !!! kv.2))) <$> td) =
    inr (objs0 ++ ((λ kv, objs !!! kv.2) <$> td),
         d0 ++ zip td.*1 (seq (length objs0) (length td))).
Proof.
  revert objs0 d0. induction td as [|[k i] td IH]; intros objs0 d0 Hnd.
  - simpl. by rewrite !app_nil_r.
  - rewrite !fmap_cons in *. cbn [load_items fst snd length seq zip zip_with].
    rewrite from_dict_to_dict.
    apply NoDup_app in Hnd as (Hd0 & Hdisj & Htd).
    apply NoDup_cons in Htd as [Hk Htd].
    rewrite dict_set_new by (intros Hin; eapply Hdisj; [done|by left]).
    rewrite IH.
    + rewrite length_app. cbn [length].
      replace (length objs0 + 1) with (S (length objs0)) by lia.
      by rewrite <-!app_assoc.
    + rewrite fmap_app. cbn [fmap list_fmap fst]. apply NoDup_app.
      split; [|split; [|done]].
      * apply NoDup_app. split; [done|]. split; [|apply NoDup_singleton].
        intros x Hx ->%list_elem_of_singleton. eapply Hdisj; [done|by left].
      * intros x [Hx| ->%list_elem_of_singleton]%elem_of_app; [|done].
        intros Hin. eapply Hdisj; [done|by right].
Qed.

Lemma loaded_entries (objs : list Task) (td : dict nat) (pre : list Task) k j :
  (k, j) ∈ zip td.*1 (seq (length pre) (length td)) →
  j < length (pre ++ ((λ kv, objs !!! kv.2) <$> td)) ∧
  ∃ i, (k, i) ∈ td ∧ (pre ++ ((λ kv, objs !!! kv.2) <$> td)) !!! j = objs !!! i.
Proof.
  revert pre. induction td as [|[k' i'] td IH]; intros pre.
  - intros []%elem_of_nil.
  - rewrite !fmap_cons. cbn [length seq zip zip_with fst snd].
    intros [[= -> ->]|Hin]%elem_of_cons.
    + split; [rewrite length_app; simpl; lia|].
      exists i'. split; [by left|]. by apply list_lookup_total_middle.
    + specialize (IH (pre ++ [objs !!! i'])).
      rewrite length_app in IH. cbn [length] in IH.
      replace (length pre + 1) with (S (length pre)) in IH by lia.
      destruct (IH Hin) as (Hlt & i & Hi & Heq).
      rewrite <-app_assoc in Hlt, Heq.
      split; [done|]. exists i. split; [by right|done].
Qed.

Lemma loaded_active (objs : list Task) (td : dict nat) (pre : list Task) :
  (λ kv, (kv.1, (pre ++ ((λ kv, objs !!! kv.2) <$> td)) !!! kv.2))
    <$> zip td.*1 (seq (length pre) (length td))
  = (λ kv, (kv.1, objs !!! kv.2)) <$> td.
Proof.
  revert pre. induction td as [|[k i] td IH]; intros pre; [done|].
  rewrite !fmap_cons. cbn [length seq zip zip_with fst snd]. rewrite fmap_cons.
  cbn [fst snd]. f_equal.
  - f_equal. by apply list_lookup_total_middle.
  - specialize (IH (pre ++ [objs !!! i])).
    rewrite length_app in IH. cbn [length] in IH.
    replace (length pre + 1) with (S (length pre)) in IH by lia.
    by rewrite <-app_assoc in IH.
Qed.

Lemma rebuild_heap_loop (objs : list Task) (l : list nat) :
  let heap := foldl (λ heap task, if no_deps objs task
                                  then heappush (ref_lt objs) heap task else heap) [] l in
  heap_ok (ref_lt objs) heap ∧
  ∀ x, x ∈ heap ↔ x ∈ l ∧ dependencies (objs !!! x) = ∅.
Proof.
  induction l as [|task l [IH1 IH2]] using rev_ind; simpl.
  - split; [apply heap_ok_nil|]. intros x. split; [intros []%elem_of_nil|].
    by intros [[]%elem_of_nil _].
  - rewrite foldl_snoc. destruct (no_deps objs task) eqn:Hnd.
    + apply no_deps_true in Hnd. split.
      * apply heappush_ok; [apply ref_lt_strict_weak|done].
      * intros x. rewrite elem_of_heappush, IH2, elem_of_app, list_elem_of_singleton.
        naive_solver.
    + apply bool_decide_eq_false in Hnd. split; [done|].
      intros x. rewrite IH2, elem_of_app, list_elem_of_singleton. naive_solver.
Qed.

(** [load_tasks] on the file that [save_tasks] wrote for [self]. *)
Lemma load_tasks_saved self0 self :
  NoDup (task_dict self).*1 →
  disk self0 = JsonText (save_data self) →
  load_tasks self0 =
    inr (rebuild_heap
           {| objs := objs self0 ++ ((λ kv, objs self !!! kv.2) <$> task_dict self);
              task_dict := zip (task_dict self).*1
                             (seq (length (objs self0)) (length (task_dict self)));
              heap := heap self0;
              completed := completed self;
              disk := disk self0 |}, None).
Proof.
  intros Hnd Hdisk. unfold load_tasks. rewrite Hdisk.
  change (default [] (j_tasks (save_data self)))
    with ((λ kv, (kv.1, to_dict (objs self !!! kv.2))) <$> task_dict self).
  change (default [] (j_completed (save_data self))) with (elements (completed self)).
  rewrite load_items_saved by done.
  by rewrite list_to_set_elements_L.
Qed.

Lemma wf_load_tasks self0 self self' m :
  wf self → disk self0 = JsonText (save_data self) →
  load_tasks self0 = inr (self', m) → wf self'.
Proof.
  intros Hwf Hdisk. rewrite (load_tasks_saved self0 self) by (done || apply Hwf).
  intros [= <- <-].
  set (ts := (λ kv, objs self !!! kv.2) <$> task_dict self).
  set (td := zip _ _).
  destruct (rebuild_heap_loop (objs self0 ++ ts) (dict_values td)) as [Hok Hheap].
  assert (td.*1 = (task_dict self).*1) as Hkeys
    by (apply fst_zip; rewrite length_seq, length_fmap; lia).
  assert (∀ k j, (k, j) ∈ td → j ∈ dict_values td) as Hval.
  { intros k j Hkj. apply list_elem_of_fmap. by exists (k, j). }
  split; cbn [rebuild_heap objs task_dict heap completed disk].
  - rewrite Hkeys. apply Hwf.
  - intros k j Hkj. destruct (loaded_entries (objs self) _ _ _ _ Hkj) as (Hlt & i & Hi & Heq).
    split; [done|]. fold ts in Heq. rewrite Heq. by apply (wf_names _ Hwf).
  - intros j [([k j'] & -> & Hkj)%list_elem_of_fmap Hd]%Hheap.
    split; [|done]. by destruct (loaded_entries (objs self) _ _ _ _ Hkj) as (Hlt & _).
  - done.
  - intros k j Hkj Hd. apply Hheap. split; [by eapply Hval|done].
  - left. rewrite Hdisk. f_equal. rewrite !save_data_active. f_equal. f_equal.
    f_equal. unfold active, rebuild_heap; cbn [objs task_dict].
    symmetry. apply (loaded_active (objs self)).
Qed.

Lemma wf_restart self self' m :
  wf self → TaskManager_init (disk self) = inr (self', m) → wf self'.
Proof.
  intros Hwf. destruct (wf_disk _ Hwf) as [Hdisk|([Hdisk|Hdisk] & _ & _)].
  - intros Hinit. unfold TaskManager_init in Hinit.
    by eapply (wf_load_tasks _ self self' m Hwf); [|apply Hinit].
  - unfold TaskManager_init, load_tasks; cbn [disk]. rewrite Hdisk.
    intros [= <- <-]. apply wf_empty. by left.
  - unfold TaskManager_init, load_tasks; cbn [disk]. rewrite Hdisk.
    intros [= <- <-]. apply wf_empty. by right.
Qed.

Section reachable_facts.
Context `{lib : PyLib}.

Lemma wf_run_op self o : wf self → wf (run_op self o).
Proof.
  destruct o; cbn [run_op]; auto using wf_add_task, wf_complete_task, wf_get_next_task.
Qed.

Lemma wf_run_ops self ops : wf self → wf (run_ops self ops).
Proof.
  revert self. induction ops as [|o ops IH]; intros self Hwf; [done|].
  apply IH. by apply wf_run_op.
Qed.

Lemma reachable_wf self : reachable self → wf self.
Proof.
  induction 1 as [f Hf|self o _ IH|self self' m _ IH Hinit].
  - by apply wf_empty.
  - by apply wf_run_op.
  - by eapply wf_restart.
Qed.

Lemma reachable_run_ops self ops : reachable self → reachable (run_ops self ops).
Proof.
  revert self. induction ops as [|o ops IH]; intros self Hr; [done|].
  apply IH. by constructor.
Qed.
End reachable_facts.

(** * The properties of the scheduler *)

Section claims.
Context `{lib : PyLib}.

(** ** What [get_next_task] and [show_pending_tasks] yield *)

Lemma get_next_task_heap self r :
  (get_next_task self).2 = Some r → r ∈ heap self.
Proof.
  unfold get_next_task; cbn [snd]. intros Hr%head_Some_elem_of.
  revert Hr. generalize (length (heap self)) as fuel. generalize (heap self) as h.
  intros h fuel. revert h.
  induction fuel as [|fuel IH]; intros h; cbn [purge_loop]; [done|].
  destruct h as [|x h0] eqn:Hh; [done|].
  destruct (live self x); cbn [negb]; [done|].
  destruct (heappop_Some (ref_lt (objs self)) (x :: h0)) as (h' & -> & HP); [done|].
  intros Hr%IH. rewrite HP. by right.
Qed.

Lemma show_pending_tasks_heap self t :
  t ∈ show_pending_tasks self ↔ t ∈ heap self ∧ live self t = true.
Proof.
  unfold show_pending_tasks. by rewrite sorted_Permutation, list_elem_of_filter, (comm and).
Qed.

(** The least ready task is the one returned. *)
Lemma get_next_task_least self k a :
  wf self → (k, a) ∈ task_dict self → dependencies (objs self !!! a) = ∅ →
  a ∈ heap (get_next_task self).1 ∧
  ∃ r, (get_next_task self).2 = Some r ∧ ref_lt (objs self) a r = false.
Proof.
  intros Hwf Hka Hd. unfold get_next_task; cbn [fst snd heap].
  destruct (purge_loop_spec self (length (heap self)) (heap self)) as (Hok & _ & Hin);
    [apply Hwf|].
  assert (a ∈ purge_loop (length (heap self)) self (heap self)) as Ha.
  { apply Hin; [by apply (wf_ready _ Hwf k)|].
    unfold live. destruct (wf_names _ Hwf k a Hka) as [_ ->].
    by apply (dict_in_elem k a). }
  split; [done|].
  destruct (purge_loop _ _ _) as [|r h] eqn:Hp; [by apply elem_of_nil in Ha|].
  exists r. split; [done|].
  by apply (heap_ok_head _ (ref_lt_strict_weak _) (r :: h)).
Qed.

(** ** Dependencies are only released by completing them *)

Lemma add_task_objs self n pr dd deps i :
  i < length (objs self) →
  objs (add_task self n pr dd deps).1 !!! i = objs self !!! i.
Proof.
  intros Hi. unfold add_task.
  destruct (str_blank n); [done|]. destruct pr; [|done..].
  destruct (strptime_ok dd); [|done]. cbn [negb].
  destruct (dict_in n (task_dict self)); [done|].
  cbn [fst save_tasks objs]. by apply lookup_total_app_l.
Qed.

Lemma run_op_keeps_dependency self o d t :
  wf self → d ∈ dependencies (objs self !!! t) →
  (o = CompleteTask d → dict_in d (task_dict self) = false) →
  d ∈ dependencies (objs (run_op self o) !!! t).
Proof.
  intros Hwf Hd Ho. destruct o as [n pr dd deps|n| |]; cbn [run_op]; [| |done..].
  - rewrite add_task_objs; [done|by eapply deps_in_range].
  - destruct (dict_in n (task_dict self)) eqn:Hin;
      [|by rewrite complete_task_inactive].
    rewrite complete_task_active by done. cbn [fst save_tasks objs].
    destruct (release_loop n (objs self, heap self)
                (dict_values (dict_del n (task_dict self)))) as [Hrel _];
      [apply Hwf..|].
    assert (n ≠ d) by (intros ->; by rewrite Ho in Hin).
    destruct (rel_deps _ _ _ Hrel t) as [-> | ->]; set_solver.
Qed.

Lemma run_ops_keep_dependency self ops d t :
  wf self → d ∈ dependencies (objs self !!! t) → never_completes d self ops →
  d ∈ dependencies (objs (run_ops self ops) !!! t).
Proof.
  revert self. induction ops as [|o ops IH]; intros self Hwf Hd Hnc; [done|].
  destruct Hnc as [Ho Hnc]. cbn [run_ops foldl]. apply IH; [|
    by apply run_op_keeps_dependency|done].
  by apply wf_run_op.
Qed.

Lemma dependency_gates self t d :
  wf self → d ∈ dependencies (objs self !!! t) →
  (t ∉ heap self) ∧ (get_next_task self).2 ≠ Some t ∧
  (t ∉ show_pending_tasks self).
Proof.
  intros Hwf Hd.
  assert (t ∉ heap self) as Hh.
  { intros [_ He]%(wf_heap _ Hwf). set_solver. }
  split; [done|]. split.
  - by intros ?%get_next_task_heap.
  - by intros [? _]%show_pending_tasks_heap.
Qed.

(** ** The claims *)

(** C1. Ordering and tie-break: when [a] and [b] are both in [task_dict]
    without dependencies, and [a] has the lower priority value, or the same
    priority and the lexicographically earlier due date, then
    [get_next_task] returns a task, one that is not after [a] and is
    strictly before [b]; so it is not [b]: [b] is not returned while [a] is
    pending, however the two were added. *)
Theorem C1_ordering self ka a kb b :
  reachable self →
  (ka, a) ∈ task_dict self → (kb, b) ∈ task_dict self →
  dependencies (objs self !!! a) = ∅ → dependencies (objs self !!! b) = ∅ →
  (priority (objs self !!! a) < priority (objs self !!! b))%Z ∨
  (priority (objs self !!! a) = priority (objs self !!! b) ∧
   String.ltb (due_date (objs self !!! a)) (due_date (objs self !!! b)) = true) →
  ∃ r, (get_next_task self).2 = Some r ∧ r ≠ b ∧
       Task_lt (objs self !!! a) (objs self !!! r) = false ∧
       Task_lt (objs self !!! r) (objs self !!! b) = true.
Proof.
  intros Hr%reachable_wf Ha Hb Hda Hdb Hlt.
  destruct (get_next_task_least self ka a Hr Ha Hda) as (_ & r & Hnext & Hle).
  assert (Task_lt (objs self !!! a) (objs self !!! b) = true) as Hab.
  { unfold Task_lt. destruct Hlt as [Hlt|[Heq Hlt]].
    - destruct (Z.eqb_spec (priority (objs self !!! a)) (priority (objs self !!! b)));
        [lia|]. by apply Z.ltb_lt.
    - by rewrite Heq, Z.eqb_refl. }
  assert (Task_lt (objs self !!! r) (objs self !!! b) = true) as Hrb.
  { destruct (Task_lt (objs self !!! r) (objs self !!! b)) eqn:Hrb; [done|].
    by rewrite (sw_negtrans _ Task_lt_strict_weak _ _ _ Hrb Hle) in Hab. }
  exists r. split; [done|]. split; [|done].
  intros ->. by rewrite (sw_irrefl _ Task_lt_strict_weak) in Hrb.
Qed.

(** C2. Release propagation: [complete_task(X)] on an active [X] removes
    [X] from [task_dict], and from the dependencies of every remaining
    task; a task whose dependencies become empty by it is in the heap when
    the call returns, is listed by [show_pending_tasks], and stays in the
    heap of [get_next_task], which returns a task that is not after it. *)
Theorem C2_release self X :
  reachable self → dict_in X (task_dict self) = true →
  let self' := (complete_task self X).1 in
  task_dict self' = dict_del X (task_dict self) ∧
  X ∈ completed self' ∧
  ∀ k t, (k, t) ∈ task_dict self' →
    dependencies (objs self' !!! t) = dependencies (objs self !!! t) ∖ {[X]} ∧
    (X ∈ dependencies (objs self !!! t) → dependencies (objs self' !!! t) = ∅ →
     t ∈ heap self' ∧ t ∈ show_pending_tasks self' ∧
     t ∈ heap (get_next_task self').1 ∧
     ∃ r, (get_next_task self').2 = Some r ∧ ref_lt (objs self') t r = false).
Proof.
  intros Hr%reachable_wf Hin self'.
  pose proof (wf_complete_task self X Hr) as Hwf'. fold self' in Hwf'.
  subst self'. revert Hwf'. rewrite complete_task_active by done.
  cbn [fst]. intros Hwf'.
  destruct (release_loop X (objs self, heap self)
              (dict_values (dict_del X (task_dict self)))) as [Hrel Hgone];
    [apply Hr..|].
  set (self' := save_tasks _) in *.
  split; [done|]. split; [cbn; set_solver|].
  intros k t Hkt.
  assert (dependencies (objs self' !!! t) = dependencies (objs self !!! t) ∖ {[X]})
    as Hdeps.
  { assert (X ∉ dependencies (objs self' !!! t)) as Hx.
    { apply Hgone. apply list_elem_of_fmap. by exists (k, t). }
    destruct (rel_deps _ _ _ Hrel t) as [He|He]; [|done].
    cbn [fst] in He. change (objs self') with (foldl (release X) (objs self, heap self)
      (dict_values (dict_del X (task_dict self)))).1 in Hx |- *.
    rewrite He in Hx |- *. set_solver. }
  split; [done|]. intros _ He.
  destruct (get_next_task_least self' k t Hwf' Hkt He) as (Hh & r & Hnext & Hle).
  assert (t ∈ heap self') as Hheap by (by apply (wf_ready _ Hwf' k)).
  split; [done|]. split; [|split; [done|by exists r]].
  apply show_pending_tasks_heap. split; [done|].
  unfold live. destruct (wf_names _ Hwf' k t Hkt) as [_ ->].
  by apply (dict_in_elem k t).
Qed.

(** C3. Dependency gating: a task [t] one of whose dependencies [d] is
    not completed by the calls [ops] is, after them, neither returned by
    [get_next_task] nor listed by [show_pending_tasks]; so a task is
    yielded only once every name of its dependency set was completed. *)
Theorem C3_gating self t d ops :
  reachable self → d ∈ dependencies (objs self !!! t) →
  never_completes d self ops →
  (get_next_task (run_ops self ops)).2 ≠ Some t ∧
  (t ∉ show_pending_tasks (run_ops self ops)).
Proof.
  intros Hr%reachable_wf Hd Hnc.
  pose proof (run_ops_keep_dependency self ops d t Hr Hd Hnc) as Hd'.
  by destruct (dependency_gates (run_ops self ops) t d (wf_run_ops _ _ Hr) Hd')
    as (_ & ? & ?).
Qed.

(** C4. Round trip: a manager that loads the file written by
    [save_tasks] for [self] gets the tasks of [self], with the same names,
    priorities, due dates and dependency sets, in the same order, and the
    same completed names. *)
Theorem C4_round_trip self0 self :
  NoDup (task_dict self).*1 →
  disk self0 = disk (save_tasks self) →
  ∃ self', load_tasks self0 = inr (self', None) ∧
           active self' = active self ∧ completed self' = completed self.
Proof.
  intros Hnd Hdisk. eexists. split; [by apply load_tasks_saved|].
  split; [|done].
  unfold active, rebuild_heap; cbn [objs task_dict].
  apply (loaded_active (objs self)).
Qed.

(** C5, as amended. Along calls in which no [add_task] adds a task under
    the name of an already completed one, no name is both a key of
    [task_dict] and in [completed]. *)
Theorem C5_disjoint_unless_readded f ops n :
  never_readds (empty_manager f) ops →
  n ∈ (task_dict (run_ops (empty_manager f) ops)).*1 →
  n ∉ completed (run_ops (empty_manager f) ops).
Proof.
  assert (∀ self, (∀ k, k ∈ (task_dict self).*1 → k ∉ completed self) →
            never_readds self ops →
            ∀ k, k ∈ (task_dict (run_ops self ops)).*1 →
                 k ∉ completed (run_ops self ops)) as Hgen.
  { induction ops as [|o ops IH]; intros self Hdis Hnr; [done|].
    destruct Hnr as [Ho Hnr]. cbn [run_ops foldl]. apply IH; [|done].
    destruct o as [m pr dd deps|m| |]; cbn [run_op]; [| |done..].
    - specialize (Ho m pr dd deps eq_refl). revert Ho. unfold add_task.
      destruct (str_blank m); [done|]. destruct pr; [|done..].
      destruct (strptime_ok dd); [|done]. cbn [negb].
      destruct (dict_in m (task_dict self)) eqn:Hin; [done|].
      apply dict_in_false in Hin. cbn [fst snd save_tasks task_dict completed].
      intros Ho. specialize (Ho eq_refl).
      rewrite dict_set_new, fmap_app by done.
      intros k [Hk| ->%list_elem_of_singleton]%elem_of_app; [by apply Hdis|done].
    - destruct (dict_in m (task_dict self)) eqn:Hin;
        [|by rewrite complete_task_inactive].
      rewrite complete_task_active by done.
      cbn [fst save_tasks task_dict completed].
      intros k Hk. assert (k ≠ m) by (intros ->; by apply dict_del_not_in in Hk).
      apply list_elem_of_fmap in Hk as ([k' v] & -> & [_ Hkv]%dict_del_elem).
      assert (k' ∉ completed self); [|set_solver].
      apply Hdis, list_elem_of_fmap. by exists (k', v). }
  intros Hnr. apply Hgen; [|done]. intros k []%elem_of_nil.
Qed.

(** C6. A rejected [add_task]: on a blank name, a priority that is not an
    [int], a date that does not parse, or a name that is a key of
    [task_dict], it prints one of the four error messages and leaves the
    manager (tasks, completed names, heap) and the file as they were. *)
Theorem C6_add_task_rejects self n pr dd deps :
  str_blank n = true ∨ (∀ z, pr ≠ PyInt z) ∨ strptime_ok dd = false ∨
    dict_in n (task_dict self) = true →
  ∃ m, add_task self n pr dd deps = (self, m) ∧
       (m = MsgEmptyName ∨ m = MsgBadPriority ∨ m = MsgBadDate ∨ m = MsgDuplicate n).
Proof.
  intros Hbad. unfold add_task.
  destruct (str_blank n); [by eauto|].
  destruct pr as [z| |]; [|by eauto..].
  destruct (strptime_ok dd); cbn [negb]; [|by eauto 6].
  destruct (dict_in n (task_dict self)); [by eauto 6|].
  destruct Hbad as [?|[Hz|[?|?]]]; try done. by destruct (Hz z).
Qed.


(** C8. Legacy records: [from_dict] on a record without [due_date] gives
    the due date 2100-01-01, on a record without [dependencies] the empty
    dependency set; the other fields are those of the record. *)
Theorem C8_legacy_defaults n p dd deps :
  from_dict (mkTaskJson (Some n) (Some p) None deps) =
    inr (mkTask n p "2100-01-01" (list_to_set (default [] deps))) ∧
  from_dict (mkTaskJson (Some n) (Some p) dd None) =
    inr (mkTask n p (default "2100-01-01"%string dd) ∅) ∧
  from_dict (mkTaskJson (Some n) (Some p) (Some "2025-03-04") (Some ["x"%string])) =
    inr (mkTask n p "2025-03-04" {["x"%string]}).
Proof.
  unfold from_dict, Task_init; cbn.
  split; [|split; [done|]].
  - do 2 f_equal. by destruct deps as [[|??]|].
  - do 2 f_equal; set_solver.
Qed.

(** C9. Idempotent purge: a second [get_next_task] right after a first
    returns the same task, or nothing again, and leaves the manager as the
    first call left it. *)
Theorem C9_get_next_task_twice self :
  get_next_task (get_next_task self).1 = get_next_task self.
Proof.
  unfold get_next_task. cbn [fst heap objs task_dict completed disk].
  set (h := purge_loop (length (heap self)) self (heap self)).
  rewrite (purge_loop_done _ (length h) h); [done|].
  intros r Hr. change (live self r = true).
  by apply (purge_loop_head self (length (heap self)) (heap self)).
Qed.

(** C10. A dependency that is never completed: after a successful
    [add_task] whose dependency list contains [D], and along any calls
    that do not complete an active [D], the new task keeps [D] in its
    dependency set, is never in the heap, and is neither returned by
    [get_next_task] nor listed by [show_pending_tasks]. *)
Theorem C10_unreleased_dependency self n pr dd deps D self1 ops :
  reachable self →
  add_task self n pr dd (Some deps) = (self1, MsgAdded n) →
  D ∈ deps →
  never_completes D self1 ops →
  let t := length (objs self) in
  (n, t) ∈ task_dict self1 ∧
  D ∈ dependencies (objs (run_ops self1 ops) !!! t) ∧
  (t ∉ heap (run_ops self1 ops)) ∧
  (get_next_task (run_ops self1 ops)).2 ≠ Some t ∧
  (t ∉ show_pending_tasks (run_ops self1 ops)).
Proof.
  intros Hr%reachable_wf Hadd HD Hnc t.
  pose proof (wf_add_task self n pr dd (Some deps) Hr) as Hwf1.
  rewrite Hadd in Hwf1. cbn [fst] in Hwf1.
  revert Hadd. unfold add_task.
  destruct (str_blank n); [done|]. destruct pr as [p| |]; [|done..].
  destruct (strptime_ok dd); [|done]. cbn [negb].
  destruct (dict_in n (task_dict self)) eqn:Hin; [done|].
  apply dict_in_false in Hin. intros [= <-].
  set (self1 := save_tasks _) in *.
  assert (D ∈ dependencies (objs self1 !!! t)) as Hd1.
  { cbn [self1 save_tasks objs]. subst t.
    rewrite list_lookup_total_middle by done.
    unfold Task_init; cbn [dependencies]. destruct deps; set_solver. }
  split.
  { cbn [self1 save_tasks task_dict]. rewrite dict_set_new by done.
    apply elem_of_app. right. by apply list_elem_of_singleton. }
  pose proof (run_ops_keep_dependency self1 ops D t Hwf1 Hd1 Hnc) as Hd2.
  split; [done|].
  by apply (dependency_gates _ t D (wf_run_ops _ _ Hwf1)).
Qed.
End claims.

(** * The scenarios, run *)

Lemma reachable_example ops : reachable (lib:=ascii_lib) (run_example ops).
Proof. apply reachable_run_ops, reach_new. by left. Qed.

(** add("A", 2, ...); add("B", 1, ...): [get_next_task] returns B. *)
Example scenario_lower_priority_value_wins :
  (get_next_task example_two).2 = Some 1 ∧
  name (objs example_two !!! 1) = "B"%string.
Proof. by vm_compute. Qed.

(** add("A", 1, ..., ["B"]); add("B", 1, ..., []): B is next; after
    [complete_task("B")], A is. *)
Example scenario_chain :
  (get_next_task example_chain).2 = Some 1 ∧
  (get_next_task (complete_task example_chain "B").1).2 = Some 0 ∧
  show_pending_tasks example_chain = [1] ∧
  show_pending_tasks (complete_task example_chain "B").1 = [0].
Proof. by vm_compute. Qed.

(** An entry of the heap is looked up by name: once "A" is completed and a
    new task "A" is added, the entry of the completed task counts as live
    again, and is what [get_next_task] returns. *)
Remark readded_name_revives_entry :
  let self := run_example
    [AddTask "A" (PyInt 1) "2025-01-01" (Some []); CompleteTask "A";
     AddTask "A" (PyInt 1) "2025-01-01" (Some ["B"%string])] in
  task_dict self = [("A"%string, 1)] ∧
  elements (dependencies (objs self !!! 1)) = ["B"%string] ∧
  (get_next_task self).2 = Some 0 ∧
  name (objs self !!! 0) = "A"%string ∧
  elements (dependencies (objs self !!! 0)) = [].
Proof. by vm_compute. Qed.

(** Witness of C1: B (priority 1) against A (priority 2). *)
Lemma C1_ordering_witness :
  ∃ r, (get_next_task example_two).2 = Some r ∧ r ≠ 0 ∧
       Task_lt (objs example_two !!! 1) (objs example_two !!! r) = false ∧
       Task_lt (objs example_two !!! r) (objs example_two !!! 0) = true.
Proof.
  apply (C1_ordering (lib:=ascii_lib) example_two "B" 1 "A" 0).
  - apply reachable_example.
  - apply (bool_decide_unpack _). by vm_compute.
  - apply (bool_decide_unpack _). by vm_compute.
  - by vm_compute.
  - by vm_compute.
  - left. by vm_compute.
Defined.

(** Witness of C2: completing B releases A. *)
Lemma C2_release_witness :
  let self' := (complete_task example_chain "B").1 in
  dependencies (objs self' !!! 0) = dependencies (objs example_chain !!! 0) ∖ {["B"%string]} ∧
  0 ∈ show_pending_tasks self'.
Proof.
  intros self'.
  assert (reachable (lib:=ascii_lib) example_chain) as Hr by apply reachable_example.
  assert (dict_in "B" (task_dict example_chain) = true) as Hin by (by vm_compute).
  destruct (C2_release (lib:=ascii_lib) example_chain "B" Hr Hin) as (_ & _ & Hall).
  destruct (Hall "A"%string 0) as [Hdeps Hready].
  { apply (bool_decide_unpack _). by vm_compute. }
  split; [exact Hdeps|].
  apply Hready; by vm_compute.
Defined.

(** Witness of C3: A waits for B. *)
Lemma C3_gating_witness :
  (get_next_task (run_ops (lib:=ascii_lib) example_chain
                    [GetNextTask; ShowPendingTasks])).2 ≠ Some 0 ∧
  (0 ∉ show_pending_tasks (run_ops (lib:=ascii_lib) example_chain
                             [GetNextTask; ShowPendingTasks])).
Proof.
  apply (C3_gating (lib:=ascii_lib) example_chain 0 "B").
  - apply reachable_example.
  - apply (bool_decide_unpack _). by vm_compute.
  - repeat split; intros [=].
Defined.

(** Witness of C4: a new process reads the file of [example_chain]. *)
Lemma C4_round_trip_witness :
  ∃ self', load_tasks (empty_manager (disk example_chain)) = inr (self', None) ∧
           active self' = active example_chain ∧
           completed self' = completed example_chain.
Proof.
  apply (C4_round_trip (empty_manager (disk example_chain)) example_chain).
  - apply (bool_decide_unpack _). by vm_compute.
  - by vm_compute.
Defined.

(** The claim C5 as stated fails: "A" is added, completed and added again. *)
Lemma C5_counterexample :
  "A"%string ∈ (task_dict (run_example example_readd)).*1 ∧
  "A"%string ∈ completed (run_example example_readd).
Proof. split; apply (bool_decide_unpack _); by vm_compute. Qed.

(** Witness of C5 as amended. *)
Lemma C5_disjoint_witness :
  "A"%string ∉ completed (run_ops (lib:=ascii_lib) (empty_manager NoFile)
    [AddTask "A" (PyInt 1) "2025-01-01" None;
     AddTask "B" (PyInt 2) "2025-01-02" None; CompleteTask "B"]).
Proof.
  apply (C5_disjoint_unless_readded (lib:=ascii_lib) NoFile).
  - repeat split; intros ???? [= <- <- <- <-] _;
      apply (bool_decide_unpack _); by vm_compute.
  - apply (bool_decide_unpack _). by vm_compute.
Defined.

(** Witness of C6: "A" is already a task. *)
Lemma C6_add_task_rejects_witness :
  ∃ m, add_task (lib:=ascii_lib) example_two "A" (PyInt 3) "2025-01-01" None
         = (example_two, m) ∧
       (m = MsgEmptyName ∨ m = MsgBadPriority ∨ m = MsgBadDate ∨ m = MsgDuplicate "A").
Proof.
  apply (C6_add_task_rejects (lib:=ascii_lib)).
  do 3 right. by vm_compute.
Defined.


(** Witness of C10: A depends on B, which is added but not completed. *)
Lemma C10_unreleased_dependency_witness :
  let self1 := (add_task (lib:=ascii_lib) (empty_manager NoFile)
                  "A" (PyInt 1) "2025-01-01" (Some ["B"%string])).1 in
  let ops := [AddTask "B" (PyInt 1) "2025-01-01" None; GetNextTask] in
  ("A"%string, 0) ∈ task_dict self1 ∧
  "B"%string ∈ dependencies (objs (run_ops (lib:=ascii_lib) self1 ops) !!! 0) ∧
  (0 ∉ heap (run_ops (lib:=ascii_lib) self1 ops)) ∧
  (get_next_task (run_ops (lib:=ascii_lib) self1 ops)).2 ≠ Some 0 ∧
  (0 ∉ show_pending_tasks (run_ops (lib:=ascii_lib) self1 ops)).
Proof.
  intros self1 ops.
  apply (C10_unreleased_dependency (lib:=ascii_lib) (empty_manager NoFile)
           "A" (PyInt 1) "2025-01-01" ["B"%string] "B" self1 ops).
  - apply reach_new. by left.
  - by vm_compute.
  - apply list_elem_of_singleton. reflexivity.
  - repeat split; intros [=].
Defined.

(** * Further properties of the program *)

(** ** add_task, when it accepts *)

(** X1. An accepted [add_task]: when the name is not blank, the date
    parses and the name is not a key of [task_dict], the task is added
    after the others with the fields given, the others and the completed
    names are as before, the file holds the new state, and the new task is
    in the heap exactly when it has no dependencies. *)
Theorem X1_add_task_accepts `{lib : PyLib} self n p dd deps :
  reachable self →
  str_blank n = false → strptime_ok dd = true →
  dict_in n (task_dict self) = false →
  let self' := (add_task self n (PyInt p) dd deps).1 in
  (add_task self n (PyInt p) dd deps).2 = MsgAdded n ∧
  active self' = active self ++ [(n, Task_init n p dd deps)] ∧
  completed self' = completed self ∧
  disk self' = JsonText (save_data self') ∧
  (length (objs self) ∈ heap self' ↔ dependencies (Task_init n p dd deps) = ∅).
Proof.
  intros Hwf%reachable_wf Hb Hd Hin self'. subst self'. unfold add_task.
  rewrite Hb, Hd, Hin. cbn [negb fst snd].
  apply dict_in_false in Hin.
  set (t := Task_init n p dd deps).
  split; [done|]. split; [|split; [done|split; [done|]]].
  - unfold active. cbn [save_tasks objs task_dict].
    rewrite dict_set_new, fmap_app by done. f_equal.
    + apply list_fmap_ext. intros j [k i] Hki%list_elem_of_lookup_2.
      cbn [fst snd]. f_equal.
      apply lookup_total_app_l. by apply (wf_names _ Hwf k).
    + cbn. f_equal. f_equal. by apply list_lookup_total_middle.
  - cbn [save_tasks heap]. unfold no_deps.
    rewrite list_lookup_total_middle by done.
    case_bool_decide as He.
    + rewrite elem_of_heappush. naive_solver.
    + split; [|done]. intros [Hlt _]%(wf_heap _ Hwf). lia.
Qed.

(** ** The file follows the manager *)

(** X2. Durability: in every state of the program, starting it again on
    the file it has written gives a manager with the same tasks (names,
    priorities, due dates, dependency sets, in the same order) and the same
    completed names. *)
Theorem X2_restart_restores `{lib : PyLib} self :
  reachable self →
  ∃ self' m, TaskManager_init (disk self) = inr (self', m) ∧
             active self' = active self ∧ completed self' = completed self.
Proof.
  intros Hwf%reachable_wf.
  destruct (wf_disk _ Hwf) as [Hdisk|(Hdisk & Htd & Hc)].
  - eexists _, None. split.
    + unfold TaskManager_init. apply load_tasks_saved; [apply Hwf|done].
    + split; [|done]. unfold active, rebuild_heap; cbn [objs task_dict].
      apply (loaded_active (objs self) _ []).
  - exists (empty_manager (disk self)).
    unfold TaskManager_init, load_tasks, active; cbn [empty_manager disk].
    rewrite Htd, Hc. destruct Hdisk as [-> | ->]; by eexists.
Qed.

(** ** rebuild_heap *)

(** X3. [rebuild_heap] drops whatever the heap held and leaves a [heapq]
    heap whose entries are exactly the tasks of [task_dict] that have no
    dependencies; the tasks, the completed names and the file are not
    touched. *)
Theorem X3_rebuild_heap_exact self :
  heap_ok (ref_lt (objs self)) (heap (rebuild_heap self)) ∧
  (∀ t, t ∈ heap (rebuild_heap self) ↔
        t ∈ dict_values (task_dict self) ∧ dependencies (objs self !!! t) = ∅) ∧
  objs (rebuild_heap self) = objs self ∧
  task_dict (rebuild_heap self) = task_dict self ∧
  completed (rebuild_heap self) = completed self ∧
  disk (rebuild_heap self) = disk self.
Proof.
  destruct (rebuild_heap_loop (objs self) (dict_values (task_dict self))) as [Hok Hin].
  by repeat split; try apply Hin.
Qed.

(** ** get_next_task *)

Lemma purge_loop_entries self fuel heap :
  (∀ x, x ∈ purge_loop fuel self heap → x ∈ heap) ∧
  (∀ x, x ∈ heap → live self x = true → x ∈ purge_loop fuel self heap) ∧
  length (purge_loop fuel self heap) ≤ length heap.
Proof.
  revert heap. induction fuel as [|fuel IH]; intros heap; cbn [purge_loop]; [done|].
  destruct heap as [|h heap0] eqn:Heq; [done|].
  destruct (live self h) eqn:Hlive; cbn [negb]; [done|].
  destruct (heappop_Some (ref_lt (objs self)) (h :: heap0)) as (heap' & Hpop & HP);
    [done|].
  rewrite Hpop. change ((h :: heap0) !!! 0) with h in *.
  destruct (IH heap') as (IH1 & IH2 & IH3).
  split; [|split].
  - intros x Hx%IH1. rewrite HP. by right.
  - intros x Hx Hl. apply IH2; [|done].
    rewrite HP in Hx. apply elem_of_cons in Hx as [->|?]; [congruence|done].
  - rewrite HP. simpl. lia.
Qed.

Lemma get_next_task_live self :
  (∀ r, (get_next_task self).2 = Some r → r ∈ heap self ∧ live self r = true) ∧
  ((get_next_task self).2 = None ↔ ∀ t, t ∈ heap self → live self t = false).
Proof.
  unfold get_next_task; cbn [snd].
  destruct (purge_loop_entries self (length (heap self)) (heap self)) as (H1 & H2 & _).
  pose proof (purge_loop_head self (length (heap self)) (heap self)) as Hhead.
  split.
  - intros r Hr. split; [by apply H1, head_Some_elem_of|by apply Hhead].
  - split.
    + intros Hnone t Ht. destruct (live self t) eqn:Hl; [|done].
      specialize (H2 t Ht Hl). destruct (purge_loop _ _ _); [|done].
      by apply elem_of_nil in H2.
    + intros Hall. destruct (head _) as [r|] eqn:Hr; [|done].
      specialize (Hall r (H1 r (head_Some_elem_of _ _ Hr))).
      by rewrite (Hhead r) in Hall.
Qed.

(** X4. What [get_next_task] returns: a returned task is an entry of the
    heap whose name is a key of [task_dict]; and it returns nothing exactly
    when no entry of the heap has its name in [task_dict]. *)
Theorem X4_get_next_task_result self :
  (∀ r, (get_next_task self).2 = Some r → r ∈ heap self ∧ live self r = true) ∧
  ((get_next_task self).2 = None ↔ ∀ t, t ∈ heap self → live self t = false).
Proof. apply get_next_task_live. Qed.

(** X5. What [get_next_task] changes: only the heap; the heap loses no
    entry whose name is a key of [task_dict] and gains none; the tasks, the
    completed names and the file are as before. *)
Theorem X5_get_next_task_frame self :
  objs (get_next_task self).1 = objs self ∧
  task_dict (get_next_task self).1 = task_dict self ∧
  completed (get_next_task self).1 = completed self ∧
  disk (get_next_task self).1 = disk self ∧
  (∀ t, t ∈ heap (get_next_task self).1 → t ∈ heap self) ∧
  (∀ t, t ∈ heap self → live self t = true → t ∈ heap (get_next_task self).1) ∧
  length (heap (get_next_task self).1) ≤ length (heap self).
Proof.
  destruct (purge_loop_entries self (length (heap self)) (heap self)) as (H1 & H2 & H3).
  by repeat split.
Qed.

(** ** show_pending_tasks *)

Section sorted_facts.
Context {A : Type} (lt : A → A → bool) (Hsw : StrictWeak lt).

Lemma sorted_insert_sorted x (l : list A) :
  StronglySorted (λ a b, lt b a = false) l →
  StronglySorted (λ a b, lt b a = false) (sorted_insert lt x l).
Proof.
  induction 1 as [|y l Hl IH Hy]; cbn [sorted_insert]; [by repeat constructor|].
  destruct (lt y x) eqn:Hyx.
  - constructor; [done|].
    rewrite sorted_insert_Permutation. constructor; [|done].
    by apply (sw_asym lt Hsw).
  - constructor; [by constructor|]. constructor; [done|].
    eapply Forall_impl; [exact Hy|]. intros z Hz.
    by apply (sw_negtrans lt Hsw _ y).
Qed.

Lemma sorted_sorted (l : list A) :
  StronglySorted (λ a b, lt b a = false) (sorted lt l).
Proof.
  induction l as [|x l IH]; cbn [sorted foldr]; [constructor|].
  by apply sorted_insert_sorted.
Qed.
End sorted_facts.

Lemma show_pending_tasks_order self :
  StronglySorted (λ a b, Task_lt (objs self !!! b) (objs self !!! a) = false)
    (show_pending_tasks self).
Proof.
  apply (sorted_sorted (ref_lt (objs self)) (ref_lt_strict_weak _)).
Qed.

(** X6. [show_pending_tasks] lists every entry of the heap whose name is a
    key of [task_dict], each as often as it is in the heap, and no task of
    the list is before one listed earlier. *)
Theorem X6_show_pending_tasks_sorted self :
  show_pending_tasks self ≡ₚ filter (λ t, live self t = true) (heap self) ∧
  StronglySorted (λ a b, Task_lt (objs self !!! b) (objs self !!! a) = false)
    (show_pending_tasks self).
Proof.
  split; [apply sorted_Permutation|apply show_pending_tasks_order].
Qed.

Lemma Task_lt_equiv a b :
  Task_lt a b = false → Task_lt b a = false →
  priority a = priority b ∧ due_date a = due_date b.
Proof.
  unfold Task_lt.
  destruct (Z.eqb_spec (priority a) (priority b)) as [Heq|Hne].
  - rewrite (proj2 (Z.eqb_eq _ _) (eq_sym Heq)). unfold String.ltb.
    rewrite (String.compare_antisym (due_date a) (due_date b)).
    destruct (String.compare (due_date b) (due_date a)) eqn:Hc; try done.
    apply String.compare_eq_iff in Hc. done.
  - destruct (Z.eqb_spec (priority b) (priority a)) as [?|_]; [congruence|].
    rewrite !Z.ltb_ge. lia.
Qed.

(** X7. The two views agree: when [get_next_task] returns a task, the
    first task listed by [show_pending_tasks] has the same priority and the
    same due date. *)
Theorem X7_next_is_first_pending `{lib : PyLib} self r :
  reachable self → (get_next_task self).2 = Some r →
  ∃ r', head (show_pending_tasks self) = Some r' ∧
        priority (objs self !!! r') = priority (objs self !!! r) ∧
        due_date (objs self !!! r') = due_date (objs self !!! r).
Proof.
  intros Hwf%reachable_wf Hr.
  destruct (get_next_task_live self) as [Hres _].
  destruct (Hres r Hr) as [Hin Hlive].
  assert (r ∈ show_pending_tasks self) as Hrp
    by (by apply show_pending_tasks_heap).
  pose proof (show_pending_tasks_order self) as Hsorted.
  destruct (show_pending_tasks self) as [|r' l] eqn:Hl;
    [by apply elem_of_nil in Hrp|].
  exists r'. split; [done|].
  assert (r' ∈ show_pending_tasks self) as Hr'p by (rewrite Hl; by left).
  apply show_pending_tasks_heap in Hr'p as [Hr'h Hr'l].
  apply Task_lt_equiv.
  - (* r is least in the purged heap, which still holds r' *)
    revert Hr. unfold get_next_task; cbn [snd]. intros Hr.
    destruct (purge_loop_spec self (length (heap self)) (heap self)) as (Hok & _ & Hkeep);
      [apply Hwf|].
    apply (heap_ok_head _ (ref_lt_strict_weak (objs self)) _ r r' Hok Hr).
    by apply Hkeep.
  - apply StronglySorted_inv in Hsorted as [_ Hall].
    apply elem_of_cons in Hrp as [->|Hrl].
    + apply (sw_irrefl _ Task_lt_strict_weak).
    + by apply (proj1 (Forall_forall _ _) Hall r).
Qed.

(** ** What a run keeps *)

Section run_facts.
Context `{lib : PyLib}.

Lemma add_task_completed self n pr dd deps :
  completed (add_task self n pr dd deps).1 = completed self.
Proof.
  unfold add_task. destruct (str_blank n); [done|]. destruct pr; [|done..].
  destruct (strptime_ok dd); [|done]. cbn [negb].
  by destruct (dict_in n (task_dict self)).
Qed.

Lemma run_op_completed self o n :
  n ∈ completed (run_op self o) ↔
  n ∈ completed self ∨ (o = CompleteTask n ∧ dict_in n (task_dict self) = true).
Proof.
  destruct o as [m pr dd deps|m| |]; cbn [run_op].
  - rewrite add_task_completed. split; [by left|]. by intros [?|[[=] ?]].
  - destruct (dict_in m (task_dict self)) eqn:Hin.
    + rewrite complete_task_active by done. cbn [fst save_tasks completed].
      rewrite elem_of_union, elem_of_singleton.
      split; [intros [->|?]; [by right|by left]|].
      intros [?|[[= ->] ?]]; [by right|by left].
    + rewrite complete_task_inactive by done. cbn [fst].
      split; [by left|]. intros [?|[[= ->] ?]]; [done|congruence].
  - split; [by left|]. by intros [?|[[=] ?]].
  - cbn. split; [by left|]. by intros [?|[[=] ?]].
Qed.

(** X8. Completion is one-way: a name enters [completed] only by
    [complete_task] of that name while it is a key of [task_dict], and no
    call ever takes a name out of [completed]. *)
Theorem X8_completed_grows self ops n :
  (n ∈ completed self → n ∈ completed (run_ops self ops)) ∧
  (∀ o, n ∈ completed (run_op self o) →
        n ∈ completed self ∨ (o = CompleteTask n ∧ dict_in n (task_dict self) = true)).
Proof.
  split; [|intros o; apply run_op_completed].
  revert self. induction ops as [|o ops IH]; intros self Hn; [done|].
  cbn [run_ops foldl]. apply IH, run_op_completed. by left.
Qed.

Lemma run_op_object self o t :
  wf self → t < length (objs self) →
  t < length (objs (run_op self o)) ∧
  name (objs (run_op self o) !!! t) = name (objs self !!! t) ∧
  priority (objs (run_op self o) !!! t) = priority (objs self !!! t) ∧
  due_date (objs (run_op self o) !!! t) = due_date (objs self !!! t) ∧
  dependencies (objs (run_op self o) !!! t) ⊆ dependencies (objs self !!! t).
Proof.
  intros Hwf Ht. destruct o as [n pr dd deps|n| |]; cbn [run_op]; [| |done..].
  - rewrite add_task_objs by done. split; [|done].
    unfold add_task. destruct (str_blank n); [done|]. destruct pr; [|done..].
    destruct (strptime_ok dd); [|done]. cbn [negb].
    destruct (dict_in n (task_dict self)); [done|].
    cbn [fst save_tasks objs]. rewrite length_app. lia.
  - destruct (dict_in n (task_dict self)) eqn:Hin;
      [|by rewrite complete_task_inactive].
    rewrite complete_task_active by done. cbn [fst save_tasks objs].
    destruct (release_loop n (objs self, heap self)
                (dict_values (dict_del n (task_dict self)))) as [Hrel _];
      [apply Hwf..|].
    rewrite (rel_length _ _ _ Hrel).
    destruct (rel_fields _ _ _ Hrel t) as (-> & -> & ->).
    split; [done|]. do 3 (split; [done|]).
    destruct (rel_deps _ _ _ Hrel t) as [He|He]; rewrite He; cbn [fst];
      [done|apply subseteq_difference_l; done].
Qed.

Lemma run_ops_object self ops t :
  wf self → t < length (objs self) →
  name (objs (run_ops self ops) !!! t) = name (objs self !!! t) ∧
  priority (objs (run_ops self ops) !!! t) = priority (objs self !!! t) ∧
  due_date (objs (run_ops self ops) !!! t) = due_date (objs self !!! t) ∧
  dependencies (objs (run_ops self ops) !!! t) ⊆ dependencies (objs self !!! t).
Proof.
  revert self. induction ops as [|o ops IH]; intros self Hwf Ht; [done|].
  change (run_ops self (o :: ops)) with (run_ops (run_op self o) ops).
  destruct (run_op_object self o t Hwf Ht) as (Ht' & Hn & Hp & Hd & Hdeps).
  destruct (IH (run_op self o) (wf_run_op _ _ Hwf) Ht') as (-> & -> & -> & Hdeps').
  repeat split; try done. set_solver.
Qed.

(** X9. A task, once created, keeps its name, priority and due date
    through every call, and its dependency set only loses names. *)
Theorem X9_task_fields_kept self ops t :
  reachable self → t < length (objs self) →
  name (objs (run_ops self ops) !!! t) = name (objs self !!! t) ∧
  priority (objs (run_ops self ops) !!! t) = priority (objs self !!! t) ∧
  due_date (objs (run_ops self ops) !!! t) = due_date (objs self !!! t) ∧
  dependencies (objs (run_ops self ops) !!! t) ⊆ dependencies (objs self !!! t).
Proof. intros Hwf%reachable_wf. by apply run_ops_object. Qed.
End run_facts.

(** ** No task twice, no stray entry *)

Lemma release_loop_heap d st0 l :
  (∀ i, i ∈ st0.2 → i < length st0.1 ∧ dependencies (st0.1 !!! i) = ∅) →
  heap_ok (ref_lt st0.1) st0.2 →
  NoDup st0.2 →
  NoDup (foldl (release d) st0 l).2 ∧
  ∀ i, i ∈ (foldl (release d) st0 l).2 → i ∈ st0.2 ∨ i ∈ l.
Proof.
  intros Hh Hok Hnd. induction l as [|task l [IH1 IH2]] using rev_ind.
  - split; [done|]. by left.
  - rewrite foldl_snoc.
    destruct (release_loop d st0 l Hh Hok) as [Hrel _].
    revert Hrel IH1 IH2. generalize (foldl (release d) st0 l).
    intros [objs heap] Hrel IH1 IH2. cbn [snd] in IH1, IH2. unfold release.
    assert (∀ i, i ∈ heap → i ∈ st0.2 ∨ i ∈ l ++ [task]) as Hold.
    { intros i [?|?]%IH2; [by left|right]. apply elem_of_app. by left. }
    case_bool_decide as Hd; [|done].
    destruct (no_deps _ _); cbn [snd]; [|done].
    assert (task ∉ heap) as Hnh.
    { intros [_ He]%(rel_heap_deps _ _ _ Hrel). cbn [fst] in He. set_solver. }
    split.
    + rewrite heappush_Permutation. by apply NoDup_cons.
    + intros i [->|?]%elem_of_heappush; [|by apply Hold].
      right. apply elem_of_app. right. by apply list_elem_of_singleton.
Qed.

Lemma purge_loop_NoDup self fuel heap :
  NoDup heap → NoDup (purge_loop fuel self heap).
Proof.
  revert heap. induction fuel as [|fuel IH]; intros heap Hnd; cbn [purge_loop];
    [done|].
  destruct heap as [|h heap0] eqn:Heq; [done|].
  destruct (live self h); cbn [negb]; [done|].
  destruct (heappop_Some (ref_lt (objs self)) (h :: heap0)) as (heap' & -> & HP);
    [done|].
  apply IH. rewrite HP in Hnd. by apply NoDup_cons in Hnd as [_ ?].
Qed.

Lemma rebuild_heap_loop_NoDup (objs : list Task) (l : list nat) :
  NoDup l →
  NoDup (foldl (λ heap task, if no_deps objs task
                             then heappush (ref_lt objs) heap task else heap) [] l).
Proof.
  induction l as [|task l IH] using rev_ind; [constructor|].
  intros (Hl & Hdisj & _)%NoDup_app. rewrite foldl_snoc.
  destruct (no_deps objs task); [|by apply IH].
  rewrite heappush_Permutation. apply NoDup_cons. split; [|by apply IH].
  intros [Hin _]%(proj2 (rebuild_heap_loop objs l)).
  apply (Hdisj task Hin). by apply list_elem_of_singleton.
Qed.

Lemma tidy_empty f : tidy (empty_manager f).
Proof. split; cbn; [constructor..|]. intros ? []%elem_of_nil. Qed.

Lemma tidy_restart self self' m :
  wf self → TaskManager_init (disk self) = inr (self', m) → tidy self'.
Proof.
  intros Hwf Hinit. pose proof (wf_restart _ _ _ Hwf Hinit) as Hwf'.
  revert Hinit Hwf'. unfold TaskManager_init.
  destruct (wf_disk _ Hwf) as [Hdisk|([Hdisk|Hdisk] & _ & _)].
  - rewrite (load_tasks_saved _ self) by (done || apply Hwf).
    intros [= <- <-] Hwf'.
    assert (NoDup (dict_values (zip (task_dict self).*1
              (seq (length (objs (empty_manager (disk self))))
                   (length (task_dict self)))))) as Hvals.
    { unfold dict_values. rewrite snd_zip by (rewrite length_seq, length_fmap; lia).
      apply NoDup_seq. }
    split; cbn [rebuild_heap objs task_dict heap completed].
    + done.
    + by apply rebuild_heap_loop_NoDup.
    + intros t Ht. left.
      pose proof Ht as [Hin _]%(proj2 (rebuild_heap_loop _ _)).
      apply list_elem_of_fmap in Hin as ([k t'] & -> & Hkt).
      destruct (wf_names _ Hwf' k t' Hkt) as [_ Hn].
      cbn [rebuild_heap objs task_dict] in Hn. cbn [snd]. by rewrite Hn.
  - unfold load_tasks; cbn [empty_manager disk]. rewrite Hdisk.
    intros [= <- <-] _. apply tidy_empty.
  - unfold load_tasks; cbn [empty_manager disk]. rewrite Hdisk.
    intros [= <- <-] _. apply tidy_empty.
Qed.

Section tidy_facts.
Context `{lib : PyLib}.

Lemma tidy_add_task self n pr dd deps :
  wf self → tidy self → tidy (add_task self n pr dd deps).1.
Proof.
  intros Hwf Ht. unfold add_task.
  destruct (str_blank n); [done|]. destruct pr as [p| |]; [|done..].
  destruct (strptime_ok dd); [|done]. cbn [negb].
  destruct (dict_in n (task_dict self)) eqn:Hin; [done|].
  apply dict_in_false in Hin. cbn [fst].
  set (t := Task_init n p dd deps).
  assert (∀ i, i < length (objs self) → (objs self ++ [t]) !!! i = objs self !!! i)
    as Hold by (intros; by apply lookup_total_app_l).
  assert ((objs self ++ [t]) !!! length (objs self) = t) as Hnew
    by (by apply list_lookup_total_middle).
  assert (length (objs self) ∉ heap self) as Hfresh
    by (intros [? _]%(wf_heap _ Hwf); lia).
  split; cbn [save_tasks objs task_dict heap completed].
  - rewrite dict_set_new by done. unfold dict_values. rewrite fmap_app.
    apply NoDup_app. split; [apply Ht|]. split; [|apply NoDup_singleton].
    intros i ([k i'] & Heq & Hki)%list_elem_of_fmap Hi%list_elem_of_singleton.
    apply (wf_names _ Hwf) in Hki as [? _]. simpl in Heq, Hi. lia.
  - destruct (no_deps _ _); [|apply Ht].
    rewrite heappush_Permutation. apply NoDup_cons. split; [done|apply Ht].
  - intros i Hi. rewrite dict_set_new by done.
    assert (i = length (objs self) ∨ i ∈ heap self) as [->|Hh].
    { destruct (no_deps _ _); [by apply elem_of_heappush in Hi|by right]. }
    + left. rewrite Hnew. apply elem_of_app. right. by apply list_elem_of_singleton.
    + rewrite Hold by (by apply (wf_heap _ Hwf)).
      destruct (tidy_entries _ Ht i Hh) as [?|?]; [left|by right].
      apply elem_of_app. by left.
Qed.

Lemma tidy_complete_task self n :
  wf self → tidy self → tidy (complete_task self n).1.
Proof.
  intros Hwf Ht. destruct (dict_in n (task_dict self)) eqn:Hin;
    [|by rewrite complete_task_inactive].
  rewrite complete_task_active by done. cbn [fst].
  destruct (release_loop n (objs self, heap self)
              (dict_values (dict_del n (task_dict self)))) as [Hrel _];
    [apply Hwf..|].
  destruct (release_loop_heap n (objs self, heap self)
              (dict_values (dict_del n (task_dict self)))) as [Hnd Hfrom];
    [apply Hwf..|apply Ht|].
  set (st := foldl _ _ _) in *.
  split; cbn [save_tasks objs task_dict heap completed].
  - eapply sublist_NoDup; [apply Ht|]. unfold dict_values, dict_del.
    apply fmap_sublist, sublist_filter.
  - done.
  - intros i Hi. destruct (rel_fields _ _ _ Hrel i) as (Hname & _).
    cbn [fst] in Hname. rewrite Hname.
    destruct (Hfrom i Hi) as [Hh|Hl]; cbn [snd] in *.
    + destruct (tidy_entries _ Ht i Hh) as [Hki|Hc]; [|right; set_solver].
      destruct (decide (name (objs self !!! i) = n)) as [->|Hne];
        [right; set_solver|left].
      by apply dict_del_elem.
    + left. apply list_elem_of_fmap in Hl as ([k i'] & -> & Hki). cbn [snd].
      pose proof Hki as [_ Hki']%dict_del_elem.
      by destruct (wf_names _ Hwf k i' Hki') as [_ ->].
Qed.

Lemma tidy_run_op self o : wf self → tidy self → tidy (run_op self o).
Proof.
  intros Hwf Ht. destruct o; cbn [run_op];
    auto using tidy_add_task, tidy_complete_task.
  unfold get_next_task; cbn [fst].
  destruct (purge_loop_entries self (length (heap self)) (heap self)) as (H1 & _ & _).
  split; cbn [objs task_dict heap completed]; [apply Ht| |].
  - apply purge_loop_NoDup, Ht.
  - intros t Hin%H1. by apply Ht.
Qed.

Lemma reachable_tidy self : reachable self → tidy self.
Proof.
  induction 1 as [f Hf|self o Hr IH|self self' m Hr IH Hinit].
  - apply tidy_empty.
  - apply tidy_run_op; [by apply reachable_wf|done].
  - eapply tidy_restart; [by apply reachable_wf|done].
Qed.

(** X10. The task table: in every state of the program, the keys of
    [task_dict] are distinct, each is the name of the task stored under it,
    and no two keys share a task. *)
Theorem X10_task_dict_keys self :
  reachable self →
  NoDup (task_dict self).*1 ∧
  NoDup (dict_values (task_dict self)) ∧
  ∀ k t, (k, t) ∈ task_dict self →
         t < length (objs self) ∧ name (objs self !!! t) = k.
Proof.
  intros Hr. pose proof (reachable_wf _ Hr) as Hwf.
  pose proof (reachable_tidy _ Hr) as Ht.
  split; [apply Hwf|]. split; [apply Ht|apply Hwf].
Qed.

(** X11. The heap: in every state of the program, [self.heap] satisfies
    the [heapq] invariant for [Task.__lt__], holds no task twice, holds
    only tasks without dependencies, and holds every task of [task_dict]
    that has none. *)
Theorem X11_heap_invariant self :
  reachable self →
  heap_ok (ref_lt (objs self)) (heap self) ∧
  NoDup (heap self) ∧
  (∀ t, t ∈ heap self → dependencies (objs self !!! t) = ∅) ∧
  (∀ k t, (k, t) ∈ task_dict self → dependencies (objs self !!! t) = ∅ →
          t ∈ heap self).
Proof.
  intros Hr. pose proof (reachable_wf _ Hr) as Hwf.
  pose proof (reachable_tidy _ Hr) as Ht.
  split; [apply Hwf|]. split; [apply Ht|]. split; [|apply Hwf].
  intros t Hin. by apply (wf_heap _ Hwf).
Qed.

(** X12. Stale entries: a task returned by [get_next_task] or listed by
    [show_pending_tasks] is the task stored under its name, or else the
    task of a completed name that was added again.  So when no name is both
    a key of [task_dict] and completed, [show_pending_tasks] lists exactly
    the tasks of [task_dict] that have no dependencies, and
    [get_next_task] returns one of them. *)
Theorem X12_pending_are_active self :
  reachable self →
  (∀ t, (get_next_task self).2 = Some t ∨ t ∈ show_pending_tasks self →
        (name (objs self !!! t), t) ∈ task_dict self ∨
        (name (objs self !!! t) ∈ completed self ∧
         name (objs self !!! t) ∈ (task_dict self).*1)) ∧
  ((∀ k, k ∈ (task_dict self).*1 → k ∉ completed self) →
   (∀ t, t ∈ show_pending_tasks self ↔
         ∃ k, (k, t) ∈ task_dict self ∧ dependencies (objs self !!! t) = ∅) ∧
   (∀ t, (get_next_task self).2 = Some t →
         (name (objs self !!! t), t) ∈ task_dict self ∧
         dependencies (objs self !!! t) = ∅)).
Proof.
  intros Hr. pose proof (reachable_wf _ Hr) as Hwf.
  pose proof (reachable_tidy _ Hr) as Ht.
  assert (∀ t, t ∈ heap self → live self t = true →
               (name (objs self !!! t), t) ∈ task_dict self ∨
               (name (objs self !!! t) ∈ completed self ∧
                name (objs self !!! t) ∈ (task_dict self).*1)) as Hlive.
  { intros t Hin Hl. destruct (tidy_entries _ Ht t Hin) as [?|?]; [by left|right].
    split; [done|]. by apply dict_in_true. }
  assert (∀ t, (get_next_task self).2 = Some t ∨ t ∈ show_pending_tasks self →
               t ∈ heap self ∧ live self t = true) as Hyield.
  { intros t [Hnext|Hshow].
    - by apply get_next_task_live.
    - by apply show_pending_tasks_heap. }
  split.
  - intros t [Hin Hl]%Hyield. by apply Hlive.
  - intros Hdisj.
    assert (∀ t, t ∈ heap self → live self t = true →
                 (name (objs self !!! t), t) ∈ task_dict self) as Hact.
    { intros t Hin Hl. destruct (Hlive t Hin Hl) as [?|[Hc Hk]]; [done|].
      by destruct (Hdisj _ Hk). }
    split.
    + intros t. rewrite show_pending_tasks_heap. split.
      * intros [Hin Hl]. exists (name (objs self !!! t)).
        split; [by apply Hact|by apply (wf_heap _ Hwf)].
      * intros (k & Hkt & Hd). split; [by apply (wf_ready _ Hwf k)|].
        unfold live. destruct (wf_names _ Hwf k t Hkt) as [_ ->].
        by apply (dict_in_elem k t).
    + intros t Hnext. destruct (Hyield t (or_introl Hnext)) as [Hin Hl].
      split; [by apply Hact|by apply (wf_heap _ Hwf)].
Qed.
End tidy_facts.

(** ** Reading documents that the program did not write *)







(** ** Calls one after the other *)

Lemma filter_all {A} (P : A → Prop) `{!∀ x, Decision (P x)} (l : list A) :
  (∀ x, x ∈ l → P x) → filter P l = l.
Proof.
  induction l as [|x l IH]; intros Hall; [done|].
  rewrite filter_cons, decide_True by (apply Hall; by left).
  f_equal. apply IH. intros y Hy. apply Hall. by right.
Qed.

Lemma complete_task_deps self X k t :
  wf self → dict_in X (task_dict self) = true →
  (k, t) ∈ task_dict (complete_task self X).1 →
  dependencies (objs (complete_task self X).1 !!! t) =
    dependencies (objs self !!! t) ∖ {[X]}.
Proof.
  intros Hwf Hin. rewrite complete_task_active by done.
  cbn [fst save_tasks objs task_dict]. intros Hkt.
  destruct (release_loop X (objs self, heap self)
              (dict_values (dict_del X (task_dict self)))) as [Hrel Hgone];
    [apply Hwf..|].
  specialize (Hgone t). revert Hgone.
  destruct (rel_deps _ _ _ Hrel t) as [He|He]; rewrite He; cbn [fst]; [|done].
  intros Hgone. 
  assert (X ∉ dependencies (objs self !!! t)); [|set_solver].
  apply Hgone, list_elem_of_fmap. by exists (k, t).
Qed.

(** X15. Adding a task and completing it at once: the keys of
    [task_dict] and their tasks are those before the two calls, the name is
    completed, and every task that was waiting for that name has lost it
    from its dependencies. *)
Theorem X15_add_then_complete `{lib : PyLib} self n pr dd deps self1 :
  reachable self →
  add_task self n pr dd deps = (self1, MsgAdded n) →
  (complete_task self1 n).2 = MsgCompleted n ∧
  task_dict (complete_task self1 n).1 = task_dict self ∧
  completed (complete_task self1 n).1 = {[n]} ∪ completed self ∧
  ∀ k t, (k, t) ∈ task_dict self →
    dependencies (objs (complete_task self1 n).1 !!! t) =
      dependencies (objs self !!! t) ∖ {[n]}.
Proof.
  intros Hwf%reachable_wf Hadd.
  pose proof (wf_add_task self n pr dd deps Hwf) as Hwf1.
  pose proof (add_task_objs self n pr dd deps) as Hobjs.
  pose proof (add_task_completed self n pr dd deps) as Hcompl.
  rewrite Hadd in Hwf1, Hobjs, Hcompl. cbn [fst] in Hwf1, Hobjs, Hcompl.
  assert (task_dict self1 = task_dict self ++ [(n, length (objs self))] ∧
          n ∉ (task_dict self).*1) as [Htd Hfresh].
  { revert Hadd. unfold add_task.
    destruct (str_blank n); [done|]. destruct pr as [p| |]; [|done..].
    destruct (strptime_ok dd); [|done]. cbn [negb].
    destruct (dict_in n (task_dict self)) eqn:Hin; [done|].
    apply dict_in_false in Hin. intros [= <-].
    cbn [save_tasks task_dict]. by rewrite dict_set_new. }
  assert (dict_in n (task_dict self1) = true) as Hin1.
  { apply (dict_in_elem n (length (objs self))). rewrite Htd.
    apply elem_of_app. right. by apply list_elem_of_singleton. }
  assert (dict_del n (task_dict self1) = task_dict self) as Hdel.
  { unfold dict_del. rewrite Htd, filter_app, filter_cons, decide_False by (by intros []).
    rewrite filter_nil, app_nil_r. apply filter_all.
    intros [k t] Hkt Heq. simpl in Heq. subst k.
    apply Hfresh, list_elem_of_fmap. by exists (n, t). }
  assert (task_dict (complete_task self1 n).1 = task_dict self) as Htd2.
  { rewrite complete_task_active by done. done. }
  split; [by rewrite complete_task_active|]. split; [done|]. split.
  - rewrite complete_task_active by done. cbn [fst save_tasks completed].
    by rewrite Hcompl.
  - intros k t Hkt.
    rewrite (complete_task_deps self1 n k t Hwf1 Hin1) by (by rewrite Htd2).
    rewrite Hobjs; [done|]. by apply (wf_names _ Hwf k).
Qed.

(** X16. A task written by [to_dict] has its four fields, and [from_dict]
    reads the same task back: same name, priority, due date and dependency
    set. *)
Theorem X16_task_round_trip t :
  from_dict (to_dict t) = inr t ∧
  j_name (to_dict t) = Some (name t) ∧
  j_priority (to_dict t) = Some (priority t) ∧
  j_due_date (to_dict t) = Some (due_date t) ∧
  (∀ d, d ∈ default [] (j_dependencies (to_dict t)) ↔ d ∈ dependencies t) ∧
  NoDup (default [] (j_dependencies (to_dict t))).
Proof.
  split; [apply from_dict_to_dict|]. do 3 (split; [done|]).
  cbn. split; [intros d; apply elem_of_elements|apply NoDup_elements].
Qed.

(** X17. Starting again clears stale entries: after the program is
    started on the file it has written, [show_pending_tasks] lists exactly
    the tasks of [task_dict] without dependencies, each once, and
    [get_next_task] returns one of them when there is one, whether or not
    a completed name was added again. *)
Theorem X17_restart_clears_stale `{lib : PyLib} self self' m :
  reachable self →
  TaskManager_init (disk self) = inr (self', m) →
  (∀ t, t ∈ show_pending_tasks self' ↔
        ∃ k, (k, t) ∈ task_dict self' ∧ dependencies (objs self' !!! t) = ∅) ∧
  NoDup (show_pending_tasks self') ∧
  (∀ t, (get_next_task self').2 = Some t →
        (name (objs self' !!! t), t) ∈ task_dict self' ∧
        dependencies (objs self' !!! t) = ∅).
Proof.
  intros Hwf%reachable_wf Hinit.
  pose proof (wf_restart _ _ _ Hwf Hinit) as Hwf'.
  pose proof (tidy_restart _ _ _ Hwf Hinit) as Ht'.
  assert (∀ t, t ∈ heap self' → (name (objs self' !!! t), t) ∈ task_dict self')
    as Hact.
  { revert Hinit. unfold TaskManager_init.
    destruct (wf_disk _ Hwf) as [Hdisk|([Hdisk|Hdisk] & _ & _)].
    - intros Hinit t Hin. pose proof Hin as Hin'. revert Hinit Hin Hwf'.
      rewrite (load_tasks_saved _ self) by (done || apply Hwf).
      intros [= <- <-] Hin Hwf'. cbn [rebuild_heap heap] in Hin.
      apply rebuild_heap_loop in Hin as [Hin _].
      apply list_elem_of_fmap in Hin as ([k t'] & -> & Hkt).
      destruct (wf_names _ Hwf' k t' Hkt) as [_ Hn]. cbn [snd].
      rewrite Hn. exact Hkt.
    - unfold load_tasks; cbn [empty_manager disk]. rewrite Hdisk.
      intros [= <- <-] t []%elem_of_nil.
    - unfold load_tasks; cbn [empty_manager disk]. rewrite Hdisk.
      intros [= <- <-] t []%elem_of_nil. }
  split; [|split].
  - intros t. rewrite show_pending_tasks_heap. split.
    + intros [Hin Hl]. exists (name (objs self' !!! t)).
      split; [by apply Hact|by apply (wf_heap _ Hwf')].
    + intros (k & Hkt & Hd). split; [by apply (wf_ready _ Hwf' k)|].
      unfold live. destruct (wf_names _ Hwf' k t Hkt) as [_ ->].
      by apply (dict_in_elem k t).
  - unfold show_pending_tasks. rewrite sorted_Permutation.
    apply NoDup_filter, Ht'.
  - intros t Hnext. destruct (get_next_task_live self') as [Hres _].
    destruct (Hres t Hnext) as [Hin _].
    split; [by apply Hact|by apply (wf_heap _ Hwf')].
Qed.

(** X18. A completed task leaves the views at once: right after
    [complete_task] of an active name, the name is no longer a key of
    [task_dict], and its task is neither returned by [get_next_task] nor
    listed by [show_pending_tasks], though its entry may still be in the
    heap. *)
Theorem X18_completed_not_pending `{lib : PyLib} self X t :
  reachable self → (X, t) ∈ task_dict self →
  (X ∉ (task_dict (complete_task self X).1).*1) ∧
  (get_next_task (complete_task self X).1).2 ≠ Some t ∧
  (t ∉ show_pending_tasks (complete_task self X).1).
Proof.
  intros Hwf%reachable_wf Hkt.
  assert (dict_in X (task_dict self) = true) as Hin by (by apply (dict_in_elem X t)).
  assert (live (complete_task self X).1 t = false) as Hdead.
  { rewrite complete_task_active by done. unfold live.
    cbn [fst save_tasks objs task_dict].
    destruct (release_loop X (objs self, heap self)
                (dict_values (dict_del X (task_dict self)))) as [Hrel _];
      [apply Hwf..|].
    destruct (rel_fields _ _ _ Hrel t) as (-> & _). cbn [fst].
    destruct (wf_names _ Hwf X t Hkt) as [_ ->].
    apply dict_in_false, dict_del_not_in. }
  split; [|split].
  - rewrite complete_task_active by done. apply dict_del_not_in.
  - intros [_ Hl]%get_next_task_live. congruence.
  - intros [_ Hl]%show_pending_tasks_heap. congruence.
Qed.

(** X19. A task added without dependencies is pending at once: after an
    accepted [add_task] with no dependencies the new task is listed by
    [show_pending_tasks], and [get_next_task] returns a task that is not
    after it. *)
Theorem X19_added_is_pending `{lib : PyLib} self n p dd deps :
  reachable self →
  str_blank n = false → strptime_ok dd = true →
  dict_in n (task_dict self) = false →
  dependencies (Task_init n p dd deps) = ∅ →
  let self' := (add_task self n (PyInt p) dd deps).1 in
  let t := length (objs self) in
  (n, t) ∈ task_dict self' ∧
  t ∈ show_pending_tasks self' ∧
  ∃ r, (get_next_task self').2 = Some r ∧
       Task_lt (objs self' !!! t) (objs self' !!! r) = false.
Proof.
  intros Hwf%reachable_wf Hb Hd Hin Hdeps self' t.
  pose proof (wf_add_task self n (PyInt p) dd deps Hwf) as Hwf'. fold self' in Hwf'.
  assert ((n, t) ∈ task_dict self' ∧ objs self' !!! t = Task_init n p dd deps)
    as [Hnt Hobj].
  { subst self' t. unfold add_task. rewrite Hb, Hd, Hin. cbn [negb fst].
    apply dict_in_false in Hin. cbn [save_tasks task_dict objs].
    rewrite dict_set_new by done. split.
    - apply elem_of_app. right. by apply list_elem_of_singleton.
    - by apply list_lookup_total_middle. }
  assert (dependencies (objs self' !!! t) = ∅) as Hd' by (by rewrite Hobj).
  destruct (get_next_task_least self' n t Hwf' Hnt Hd') as (_ & r & Hnext & Hle).
  split; [done|]. split; [|by exists r].
  apply show_pending_tasks_heap. split; [by apply (wf_ready _ Hwf' n)|].
  unfold live. destruct (wf_names _ Hwf' n t Hnt) as [_ ->].
  by apply (dict_in_elem n t).
Qed.

(** ** The further properties, on the examples *)

Lemma X1_add_task_accepts_witness :
  active (add_task (lib:=ascii_lib) example_two "C" (PyInt 3) "2025-02-02" None).1
  = active example_two ++ [("C"%string, Task_init "C" 3 "2025-02-02" None)].
Proof.
  assert (reachable (lib:=ascii_lib) example_two) as Hr by apply reachable_example.
  destruct (X1_add_task_accepts (lib:=ascii_lib) example_two "C" 3 "2025-02-02" None Hr)
    as (_ & Hactive & _); [by vm_compute..|].
  exact Hactive.
Defined.

Lemma X2_restart_restores_witness :
  ∃ self' m, TaskManager_init (disk example_chain) = inr (self', m) ∧
             active self' = active example_chain ∧
             completed self' = completed example_chain.
Proof.
  apply (X2_restart_restores (lib:=ascii_lib)), reachable_example.
Defined.

Lemma X7_next_is_first_pending_witness :
  ∃ r', head (show_pending_tasks example_two) = Some r' ∧
        priority (objs example_two !!! r') = priority (objs example_two !!! 1) ∧
        due_date (objs example_two !!! r') = due_date (objs example_two !!! 1).
Proof.
  apply (X7_next_is_first_pending (lib:=ascii_lib)).
  - apply reachable_example.
  - by vm_compute.
Defined.

Lemma X9_task_fields_kept_witness :
  name (objs (run_ops (lib:=ascii_lib) example_chain [CompleteTask "B"]) !!! 0)
    = name (objs example_chain !!! 0) ∧
  dependencies (objs (run_ops (lib:=ascii_lib) example_chain [CompleteTask "B"]) !!! 0)
    ⊆ dependencies (objs example_chain !!! 0).
Proof.
  destruct (X9_task_fields_kept (lib:=ascii_lib) example_chain [CompleteTask "B"] 0)
    as (Hn & _ & _ & Hd).
  - apply reachable_example.
  - vm_compute. lia.
  - split; [exact Hn|exact Hd].
Defined.

Lemma X10_task_dict_keys_witness :
  NoDup (task_dict (run_example example_readd)).*1 ∧
  NoDup (dict_values (task_dict (run_example example_readd))).
Proof.
  destruct (X10_task_dict_keys (lib:=ascii_lib) (run_example example_readd))
    as (Hk & Hv & _); [apply reachable_example|].
  split; [exact Hk|exact Hv].
Defined.

Lemma X11_heap_invariant_witness :
  NoDup (heap (run_example example_readd)) ∧
  ∀ t, t ∈ heap (run_example example_readd) →
       dependencies (objs (run_example example_readd) !!! t) = ∅.
Proof.
  destruct (X11_heap_invariant (lib:=ascii_lib) (run_example example_readd))
    as (_ & Hnd & Hdeps & _); [apply reachable_example|].
  split; [exact Hnd|exact Hdeps].
Defined.

Lemma X12_pending_are_active_witness :
  1 ∈ show_pending_tasks example_chain ↔
  ∃ k, (k, 1) ∈ task_dict example_chain ∧
       dependencies (objs example_chain !!! 1) = ∅.
Proof.
  destruct (X12_pending_are_active (lib:=ascii_lib) example_chain) as [_ Hdisj];
    [apply reachable_example|].
  apply Hdisj. intros k _. vm_compute. set_solver.
Defined.



Lemma X15_add_then_complete_witness :
  let self1 := (add_task (lib:=ascii_lib) example_chain "C" (PyInt 1) "2025-01-01" None).1 in
  task_dict (complete_task self1 "C").1 = task_dict example_chain ∧
  completed (complete_task self1 "C").1 = {["C"%string]} ∪ completed example_chain.
Proof.
  intros self1.
  destruct (X15_add_then_complete (lib:=ascii_lib) example_chain
              "C" (PyInt 1) "2025-01-01" None self1) as (_ & Htd & Hc & _).
  - apply reachable_example.
  - by vm_compute.
  - split; [exact Htd|exact Hc].
Defined.

Lemma X17_restart_clears_stale_witness :
  NoDup (show_pending_tasks example_restarted) ∧
  ∀ t, (get_next_task example_restarted).2 = Some t →
       (name (objs example_restarted !!! t), t) ∈ task_dict example_restarted ∧
       dependencies (objs example_restarted !!! t) = ∅.
Proof.
  destruct (X17_restart_clears_stale (lib:=ascii_lib)
              (run_example example_readd) example_restarted None)
    as (_ & Hnd & Hnext).
  - apply reachable_example.
  - by vm_compute.
  - split; [exact Hnd|exact Hnext].
Defined.

Lemma X18_completed_not_pending_witness :
  (get_next_task (complete_task example_chain "B").1).2 ≠ Some 1 ∧
  (1 ∉ show_pending_tasks (complete_task example_chain "B").1).
Proof.
  destruct (X18_completed_not_pending (lib:=ascii_lib) example_chain "B" 1)
    as (_ & Hnext & Hshow).
  - apply reachable_example.
  - apply (bool_decide_unpack _). by vm_compute.
  - split; [exact Hnext|exact Hshow].
Defined.

Lemma X19_added_is_pending_witness :
  2 ∈ show_pending_tasks
        (add_task (lib:=ascii_lib) example_two "C" (PyInt 3) "2025-02-02" None).1.
Proof.
  assert (reachable (lib:=ascii_lib) example_two) as Hr by apply reachable_example.
  destruct (X19_added_is_pending (lib:=ascii_lib) example_two
              "C" 3 "2025-02-02" None Hr) as (_ & Hshow & _); [by vm_compute..|].
  exact Hshow.
Defined.
